(** * PackageCompatibility.js: the compatibility matcher and checker

    A shallow embedding of [src/PackageCompatibility.js] and the
    properties its specification states about it.

    JavaScript strings are modelled as [string]; the only character the
    code inspects is ['!'], so the difference between bytes and UTF-16
    code units plays no role. *)

From Stdlib Require Import Ascii String.
From stdpp Require Import base list strings gmap.

Local Open Scope string_scope.
Local Open Scope list_scope.

(** ** Matcher *)

Module Matcher.

(** [item[0]]: the first character, [undefined] on the empty string. *)
Definition char0 (item : string) : option ascii :=
  match item with
  | EmptyString => None
  | String c _ => Some c
  end.

(** [item[0] === '!'] *)
Definition bang (item : string) : bool :=
  match char0 item with
  | Some c => Ascii.eqb c "!"%char
  | None => false
  end.

(** [item.slice(1)] *)
Definition slice1 (item : string) : string :=
  match item with
  | EmptyString => EmptyString
  | String _ rest => rest
  end.

(** The body of the [for (const item of items)] loop of [isValid],
    with the mutable local [isBlacklist] threaded through. *)
Fixpoint isValid_loop (items : list string) (actual : string)
    (isBlacklist : bool) : bool :=
  match items with
  | [] => isBlacklist
  | item :: items' =>
      if String.eqb item actual then true
      else if bang item then
        if String.eqb actual (slice1 item) then false
        else isValid_loop items' actual true
      else isValid_loop items' actual isBlacklist
  end.

Definition isValid (items : list string) (actual : string) : bool :=
  isValid_loop items actual false.

End Matcher.

Import Matcher.

(** ** Effects

    [check] talks to two collaborators whose code lives elsewhere: the
    reporter ([warn], [info], [error]) and the manifest's package
    reference ([addIgnore]).  A call on either is recorded as an event;
    a computation yields the events it produced, in order, and how it
    completed. *)

Inductive Event : Type :=
  | ReporterWarn (msg : string)
  | ReporterInfo (msg : string)
  | ReporterError (msg : string)
  | RefAddIgnore (ref : nat) (ignore : bool).

Inductive Exn : Type :=
  | InvariantViolation (msg : string)   (* thrown by [invariant] *)
  | MessageError (msg : string)         (* [new MessageError(msg)] *)
  | TypeError (msg : string).           (* thrown inside [semver] *)

(** What a call of [semver.satisfies] does: it returns a boolean, or it
    throws a [TypeError] ("Invalid Version: ..."); [check] has no handler
    around the call. *)
Inductive SemverResult : Type :=
  | SemverReturn (sat : bool)
  | SemverThrow (msg : string).

Inductive Completion (A : Type) : Type :=
  | Normal (a : A)
  | Throw (e : Exn).
Arguments Normal {A} a.
Arguments Throw {A} e.

Definition Eff (A : Type) : Type := (list Event * Completion A)%type.

Definition eff_ret {A} (a : A) : Eff A := ([], Normal a).

Definition eff_bind {A B} (f : A → Eff B) (m : Eff A) : Eff B :=
  match m.2 with
  | Normal a => (m.1 ++ (f a).1, (f a).2)
  | Throw e => (m.1, Throw e)
  end.

#[global] Instance Eff_ret : MRet Eff := @eff_ret.
#[global] Instance Eff_bind : MBind Eff := @eff_bind.

Definition emit (ev : Event) : Eff unit := ([ev], Normal ()).
Definition throw {A} (e : Exn) : Eff A := ([], Throw e).

(** [for (const x of xs) body], with the locals the body assigns
    threaded through as [st]. *)
Fixpoint for_of {A St} (xs : list A) (body : St → A → Eff St) (st : St)
    : Eff St :=
  match xs with
  | [] => mret st
  | x :: xs' => st' ← body st x; for_of xs' body st'
  end.

(** ** Data model *)

(** The package reference as [check] uses it: the object itself
    (identified by [ref_id]) and its [optional] flag.  [addIgnore] is a
    method of PackageReference.js, which is not part of the sources; it
    is taken to return normally and not to change [optional]. *)
Record PackageReference : Type := {
  ref_id : nat;
  optional : bool;
}.

(** The fields of a manifest that [check] reads.  [os] and [cpu] are
    [Some] exactly when [Array.isArray] holds of the field, [engines]
    when [_.isPlainObject] does.  [engines] holds what
    [entries(info.engines)] (util/misc.js) yields: the object's own
    name/range pairs in enumeration order. *)
Record Manifest : Type := {
  name : string;
  version : string;
  os : option (list string);
  cpu : option (list string);
  engines : option (list (string * string));
  reference : option PackageReference;
}.

(** The host's [process] object. *)
Record Process : Type := {
  platform : string;
  arch : string;
  versions : gmap string string;
}.

Record PackageResolver : Type := {
  getManifests : list Manifest;
}.

(** Modelled from the spec: util/map.js is not part of the sources; the
    spec calls [aliases] "a fixed alias table", so [map] is taken to
    build a table holding the listed keys and nothing else. *)
Definition aliases : gmap string string := {[ "iojs" := "node" ]}.

Definition ignore : list string := ["npm"; "teleport"].

(** The locals [didIgnore] and [didError] of [check], which the closure
    [pushError] assigns. *)
Record Locals : Type := {
  didIgnore : bool;
  didError : bool;
}.

(** Modelled from the spec: PackageReference.js is not part of the
    sources.  [addIgnore(flag)] "marks exclusion": the reference's
    exclusion mark takes the value passed.  [excluded_after r init tr]
    is the mark of reference [r] once the calls of [tr] were made. *)
Definition excluded_after (r : nat) (init : bool) (tr : list Event) : bool :=
  foldl (λ mark ev,
           match ev with
           | RefAddIgnore r' flag => if Nat.eqb r r' then flag else mark
           | _ => mark
           end) init tr.

(** ** CompatibilityChecker and batch driver *)

Section PackageCompatibility.

(** [semver.satisfies(version, range)], from the semver package.  The
    version is what [process.versions[name]] reads, [None] standing for
    [undefined]. *)
Variable semver_satisfies : option string → string → SemverResult.

(** What lodash's [_.has(object, name)] answers for a [name] that is not
    an own key of [object]: lodash then reads [name] as a property path
    (["node.length"]) and follows it through the values. *)
Variable lodash_has_path : gmap string string → string → bool.

(** The global [process]. *)
Variable process : Process.

Definition isValidArch (archs : list string) : bool :=
  isValid archs (arch process).

Definition isValidPlatform (platforms : list string) : bool :=
  isValid platforms (platform process).

(** [`${info.name}@${info.version}`] *)
Definition human (info : Manifest) : string :=
  name info +:+ "@" +:+ version info.

(** The closure [pushError] of [check]; it returns the locals as it
    leaves them. *)
Definition pushError (info : Manifest) (st : Locals) (msg : string)
    : Eff Locals :=
  match reference info with
  | None => throw (InvariantViolation "expected package reference")
  | Some ref =>
      if optional ref then
        emit (RefAddIgnore (ref_id ref) true);;
        emit (ReporterWarn (human info +:+ ": " +:+ msg));;
        if negb (didIgnore st) then
          emit (ReporterInfo
                  (human info +:+
                   " is an optional dependency and failed compatibility check. " +:+
                   "Excluding it from installation."));;
          mret {| didIgnore := true; didError := didError st |}
        else mret st
      else
        emit (ReporterError (human info +:+ ": " +:+ msg));;
        mret {| didIgnore := didIgnore st; didError := true |}
  end.

(** [if (aliases[name]) name = aliases[name]]: a non-empty string is
    truthy, a missing key reads as [undefined]. *)
Definition resolveAlias (name : string) : string :=
  match aliases !! name with
  | Some alias => if String.eqb alias EmptyString then name else alias
  | None => name
  end.

(** [_.has(object, name)]: an own key is found as such; any other name
    is tried as a path. *)
Definition lodash_has (object : gmap string string) (name : string) : bool :=
  match object !! name with
  | Some _ => true
  | None => lodash_has_path object name
  end.

(** The call [semver.satisfies(actual, range)] inside [check]. *)
Definition satisfies (actual : option string) (range : string) : Eff bool :=
  match semver_satisfies actual range with
  | SemverReturn sat => mret sat
  | SemverThrow msg => throw (TypeError msg)
  end.

(** The body of the loop over [entries(info.engines)]. *)
Definition checkEngine (info : Manifest) (st : Locals)
    (entry : string * string) : Eff Locals :=
  let name := resolveAlias entry.1 in
  let range := entry.2 in
  if lodash_has (versions process) name then
    let actual := versions process !! name in
    sat ← satisfies actual range;
    if negb sat then
      pushError info st
        ("The engine " +:+ name +:+
         " is incompatible with this module. Expected version " +:+
         range +:+ ".")
    else mret st
  else if negb (bool_decide (name ∈ ignore)) then
    emit (ReporterWarn
            (human info +:+ ": The engine " +:+ name +:+
             " appears to be invalid."));;
    mret st
  else mret st.

Definition check (info : Manifest) : Eff unit :=
  let st := {| didIgnore := false; didError := false |} in
  st ← match os info with
       | Some platforms =>
           if negb (isValidPlatform platforms) then
             pushError info st
               ("The platform " +:+ platform process +:+
                " is incompatible with this module.")
           else mret st
       | None => mret st
       end;
  st ← match cpu info with
       | Some archs =>
           if negb (isValidArch archs) then
             pushError info st
               ("The CPU architecture " +:+ arch process +:+
                " is incompatible with this module.")
           else mret st
       | None => mret st
       end;
  st ← match engines info with
       | Some entries => for_of entries (checkEngine info) st
       | None => mret st
       end;
  if didError st then throw (MessageError "Found incompatible module")
  else mret ().

(** [init] is [async]: its completion is the settlement of the promise
    it returns, [Throw] standing for rejection. *)
Definition init (resolver : PackageResolver) : Eff unit :=
  for_of (getManifests resolver) (λ _ info, check info) ().

(** *** What a run finds

    What the three checks find, apart from how it is reported.  A
    violation is what [check] hands to [pushError]; an advisory is the
    "appears to be invalid" warning.  The engines loop ends early when
    [semver.satisfies] throws: the findings are those made before that,
    and the message thrown is the run's fault. *)

Inductive Finding : Type :=
  | Violation (msg : string)
  | Advisory (msg : string).

Definition os_findings (info : Manifest) : list Finding :=
  match os info with
  | Some platforms =>
      if isValid platforms (platform process) then []
      else [Violation ("The platform " +:+ platform process +:+
                       " is incompatible with this module.")]
  | None => []
  end.

Definition cpu_findings (info : Manifest) : list Finding :=
  match cpu info with
  | Some archs =>
      if isValid archs (arch process) then []
      else [Violation ("The CPU architecture " +:+ arch process +:+
                       " is incompatible with this module.")]
  | None => []
  end.

Definition engine_findings (entry : string * string) : list Finding :=
  let name := resolveAlias entry.1 in
  if lodash_has (versions process) name then
    match semver_satisfies (versions process !! name) entry.2 with
    | SemverReturn true => []
    | SemverReturn false =>
        [Violation ("The engine " +:+ name +:+
                    " is incompatible with this module. Expected version " +:+
                    entry.2 +:+ ".")]
    | SemverThrow _ => []
    end
  else if bool_decide (name ∈ ignore) then []
  else [Advisory ("The engine " +:+ name +:+ " appears to be invalid.")].

(** The message [semver.satisfies] throws on this entry, if it does. *)
Definition engine_fault (entry : string * string) : option string :=
  let name := resolveAlias entry.1 in
  if lodash_has (versions process) name then
    match semver_satisfies (versions process !! name) entry.2 with
    | SemverReturn _ => None
    | SemverThrow msg => Some msg
    end
  else None.

(** The engines loop: the findings up to the first entry on which
    [semver.satisfies] throws, and what it throws there. *)
Fixpoint engines_run (entries : list (string * string))
    : list Finding * option string :=
  match entries with
  | [] => ([], None)
  | entry :: entries' =>
      match engine_fault entry with
      | Some msg => ([], Some msg)
      | None =>
          (engine_findings entry ++ (engines_run entries').1,
           (engines_run entries').2)
      end
  end.

Definition engines_findings (info : Manifest) : list Finding :=
  match engines info with
  | Some entries => (engines_run entries).1
  | None => []
  end.

Definition fault (info : Manifest) : option string :=
  match engines info with
  | Some entries => (engines_run entries).2
  | None => None
  end.

Definition findings (info : Manifest) : list Finding :=
  os_findings info ++ cpu_findings info ++ engines_findings info.

Definition violation_of (f : Finding) : option string :=
  match f with Violation msg => Some msg | Advisory _ => None end.

Definition finding_msg (f : Finding) : string :=
  match f with Violation msg => msg | Advisory msg => msg end.

Definition violations (info : Manifest) : list string :=
  omap violation_of (findings info).

(** When each category is violated, in the code's own terms. *)
Definition os_violated (info : Manifest) : Prop :=
  ∃ platforms, os info = Some platforms ∧ isValidPlatform platforms = false.

Definition cpu_violated (info : Manifest) : Prop :=
  ∃ archs, cpu info = Some archs ∧ isValidArch archs = false.

Definition engines_violated (info : Manifest) : Prop :=
  ∃ entries name range,
    engines info = Some entries ∧ (name, range) ∈ entries ∧
    lodash_has (versions process) (resolveAlias name) = true ∧
    semver_satisfies (versions process !! resolveAlias name) range =
      SemverReturn false.

(** [semver.satisfies] throws on some declared engine. *)
Definition semver_throws (info : Manifest) : Prop :=
  ∃ entries name range msg,
    engines info = Some entries ∧ (name, range) ∈ entries ∧
    lodash_has (versions process) (resolveAlias name) = true ∧
    semver_satisfies (versions process !! resolveAlias name) range =
      SemverThrow msg.

(** The advisories found before the first violation. *)
Fixpoint advisories_before (fs : list Finding) : list string :=
  match fs with
  | Advisory msg :: fs' => msg :: advisories_before fs'
  | _ => []
  end.

(** The findings routed one by one: a violation through [pushError],
    an advisory to [reporter.warn]. *)
Fixpoint report (info : Manifest) (st : Locals) (fs : list Finding)
    : Eff Locals :=
  match fs with
  | [] => mret st
  | Violation msg :: fs' => st' ← pushError info st msg; report info st' fs'
  | Advisory msg :: fs' =>
      emit (ReporterWarn (human info +:+ ": " +:+ msg));; report info st fs'
  end.

(** The end of [check], lines 131 to 133. *)
Definition finish (st : Locals) : Eff unit :=
  if didError st then throw (MessageError "Found incompatible module")
  else mret ().

(** How a run ends after its findings were reported: with what
    [semver.satisfies] threw, or at the end of [check]. *)
Definition ending (flt : option string) (st : Locals) : Eff unit :=
  match flt with
  | Some msg => throw (TypeError msg)
  | None => finish st
  end.

(** What a non-optional reference makes of a finding. *)
Definition required_event (info : Manifest) (f : Finding) : Event :=
  match f with
  | Violation msg => ReporterError (human info +:+ ": " +:+ msg)
  | Advisory msg => ReporterWarn (human info +:+ ": " +:+ msg)
  end.

Definition excluding_msg (info : Manifest) : string :=
  human info +:+
  " is an optional dependency and failed compatibility check. " +:+
  "Excluding it from installation.".

(** What an optional reference makes of the findings; [ignored] says
    whether the informational message was already given. *)
Fixpoint optional_events (info : Manifest) (ref : PackageReference)
    (ignored : bool) (fs : list Finding) : list Event :=
  match fs with
  | [] => []
  | Violation msg :: fs' =>
      RefAddIgnore (ref_id ref) true ::
      ReporterWarn (human info +:+ ": " +:+ msg) ::
      (if ignored then [] else [ReporterInfo (excluding_msg info)]) ++
      optional_events info ref true fs'
  | Advisory msg :: fs' =>
      ReporterWarn (human info +:+ ": " +:+ msg) ::
      optional_events info ref ignored fs'
  end.

End PackageCompatibility.

(** Projections of a trace. *)
Definition warn_of (ev : Event) : option string :=
  match ev with ReporterWarn msg => Some msg | _ => None end.

Definition info_of (ev : Event) : option string :=
  match ev with ReporterInfo msg => Some msg | _ => None end.

Definition error_of (ev : Event) : option string :=
  match ev with ReporterError msg => Some msg | _ => None end.

Definition addIgnore_of (ev : Event) : option (nat * bool) :=
  match ev with RefAddIgnore r flag => Some (r, flag) | _ => None end.

(** The text of a reporter call. *)
Definition message_of (ev : Event) : option string :=
  match ev with
  | ReporterWarn msg | ReporterInfo msg | ReporterError msg => Some msg
  | RefAddIgnore _ _ => None
  end.

(** [info] with its [engines] field replaced. *)
Definition with_engines (info : Manifest)
    (entries : option (list (string * string))) : Manifest :=
  {| name := name info; version := version info; os := os info;
     cpu := cpu info; engines := entries; reference := reference info |}.

(** *** Example host and manifests *)

Definition semver_never : option string → string → SemverResult :=
  λ _ _, SemverReturn false.

Definition no_paths : gmap string string → string → bool := λ _ _, false.

Definition win32_host : Process :=
  {| platform := "win32"; arch := "x64";
     versions := {[ "node" := "18.0.0" ]} |}.

Definition left_pad (ref : option PackageReference) : Manifest :=
  {| name := "left-pad"; version := "1.0.0";
     os := Some ["!win32"]; cpu := Some ["arm"];
     engines := Some [("teleport", "*"); ("foo", "*"); ("iojs", ">=99.0.0")];
     reference := ref |}.

Definition bare (ref : option PackageReference) : Manifest :=
  {| name := "bare"; version := "0.1.0";
     os := None; cpu := None; engines := None; reference := ref |}.

Definition unknown_tool (ref : option PackageReference) : Manifest :=
  {| name := "tool"; version := "2.0.0";
     os := None; cpu := None; engines := Some [("someUnknownTool", "*")];
     reference := ref |}.

Definition semver_always : option string → string → SemverResult :=
  λ _ _, SemverReturn true.

(** A stand-in for semver on the versions used below: ["127"] is not a
    semantic version, [undefined] satisfies nothing, and ["*"] admits
    every other version. *)
Definition semver_strict (actual : option string) (range : string)
    : SemverResult :=
  match actual with
  | None => SemverReturn false
  | Some v =>
      if String.eqb v "127" then SemverThrow "Invalid Version: 127"
      else SemverReturn (String.eqb range "*")
  end.

(** A stand-in for lodash's path reading: ["node.length"] is found on a
    host that has a [node] version, as the length of that string. *)
Definition length_path (object : gmap string string) (name : string) : bool :=
  String.eqb name "node.length" && bool_decide (is_Some (object !! "node")).

Definition modules_host : Process :=
  {| platform := "linux"; arch := "x64";
     versions := {[ "node" := "18.0.0"; "modules" := "127" ]} |}.

Definition native (os_list : option (list string))
    (ref : option PackageReference) : Manifest :=
  {| name := "native"; version := "1.2.0";
     os := os_list; cpu := None; engines := Some [("modules", "*")];
     reference := ref |}.

Definition dotted (ref : option PackageReference) : Manifest :=
  {| name := "dotted"; version := "1.0.0";
     os := None; cpu := None; engines := Some [("node.length", "*")];
     reference := ref |}.

Definition npm_host : Process :=
  {| platform := "linux"; arch := "x64";
     versions := {[ "node" := "18.0.0"; "npm" := "9.0.0" ]} |}.

Definition npm_pinned (ref : option PackageReference) : Manifest :=
  {| name := "pinned"; version := "3.1.0";
     os := None; cpu := None;
     engines := Some [("node", ">=4"); ("npm", ">=99")];
     reference := ref |}.

Definition nowhere (ref : option PackageReference) : Manifest :=
  {| name := "nowhere"; version := "0.0.1";
     os := Some []; cpu := None; engines := None; reference := ref |}.

Definition required_ref : PackageReference :=
  {| ref_id := 1; optional := false |}.

Definition optional_ref : PackageReference :=
  {| ref_id := 2; optional := true |}.

(** * Properties *)

(** ** Matcher *)

Example isValid_mixed_plain : isValid ["!linux"; "win32"] "win32" = true.
Proof. reflexivity. Qed.

Example isValid_mixed_denied : isValid ["!linux"; "win32"] "linux" = false.
Proof. reflexivity. Qed.

Example isValid_mixed_other : isValid ["!linux"; "win32"] "darwin" = true.
Proof. reflexivity. Qed.

Lemma bang_cons (s : string) : bang ("!" +:+ s) = true.
Proof. reflexivity. Qed.

Lemma slice1_cons (s : string) : slice1 ("!" +:+ s) = s.
Proof. reflexivity. Qed.

(** An entry denies [actual] exactly when it is ['!'] followed by
    [actual]. *)
Lemma denies_iff (item actual : string) :
  bang item = true ∧ actual = slice1 item ↔ item = "!" +:+ actual.
Proof.
  split.
  - intros [Hb ->]. destruct item as [|c rest]; [discriminate|].
    unfold bang in Hb; simpl in Hb.
    apply Ascii.eqb_eq in Hb. by subst c.
  - intros ->. done.
Qed.

Lemma bang_slice1_ne (item : string) : bang item = true → slice1 item ≠ item.
Proof.
  intros Hb Heq. apply (f_equal String.length) in Heq.
  destruct item as [|c rest]; [discriminate|]. simpl in Heq. lia.
Qed.

(** One step of the loop, by what the entry is. *)
Lemma isValid_loop_cons_eq (items : list string) (actual : string) (b : bool) :
  isValid_loop (actual :: items) actual b = true.
Proof. cbn [isValid_loop]. by rewrite String.eqb_refl. Qed.

Lemma isValid_loop_cons_deny (items : list string) (actual : string) (b : bool) :
  isValid_loop (("!" +:+ actual) :: items) actual b = false.
Proof.
  cbn [isValid_loop]. rewrite bang_cons, slice1_cons, String.eqb_refl.
  destruct (String.eqb_spec ("!" +:+ actual) actual) as [Heq|_]; [|done].
  by destruct (bang_slice1_ne ("!" +:+ actual)).
Qed.

Lemma isValid_loop_cons_skip (item : string) (items : list string)
    (actual : string) (b : bool) :
  item ≠ actual → item ≠ "!" +:+ actual →
  isValid_loop (item :: items) actual b = isValid_loop items actual (b || bang item).
Proof.
  intros Hne Hnd. cbn [isValid_loop].
  destruct (String.eqb_spec item actual) as [|_]; [done|].
  destruct (bang item) eqn:Hb.
  - destruct (String.eqb_spec actual (slice1 item)) as [Hs|_].
    + destruct Hnd. by apply denies_iff.
    + by rewrite orb_true_r.
  - by rewrite orb_false_r.
Qed.

(** The first entry equal to [actual] or to ['!' + actual] decides. *)
Lemma isValid_loop_first_eq (pre post : list string) (actual : string) (b : bool) :
  ("!" +:+ actual) ∉ pre →
  isValid_loop (pre ++ actual :: post) actual b = true.
Proof.
  revert b. induction pre as [|item pre IH]; intros b Hpre.
  - apply isValid_loop_cons_eq.
  - apply not_elem_of_cons in Hpre as [Hnd Hpre].
    destruct (decide (item = actual)) as [->|Hne].
    + apply isValid_loop_cons_eq.
    + rewrite <- app_comm_cons, isValid_loop_cons_skip by done. by apply IH.
Qed.

Lemma isValid_loop_first_deny (pre post : list string) (actual : string) (b : bool) :
  actual ∉ pre →
  isValid_loop (pre ++ ("!" +:+ actual) :: post) actual b = false.
Proof.
  revert b. induction pre as [|item pre IH]; intros b Hpre.
  - apply isValid_loop_cons_deny.
  - apply not_elem_of_cons in Hpre as [Hne Hpre].
    destruct (decide (item = "!" +:+ actual)) as [->|Hnd].
    + apply isValid_loop_cons_deny.
    + rewrite <- app_comm_cons, isValid_loop_cons_skip by done. by apply IH.
Qed.

(** With neither present, the outcome is whether a blacklist entry was
    seen. *)
Lemma isValid_loop_no_hit (items : list string) (actual : string) (b : bool) :
  actual ∉ items → ("!" +:+ actual) ∉ items →
  isValid_loop items actual b = b || existsb bang items.
Proof.
  revert b. induction items as [|item items IH]; intros b Hne Hnd.
  - simpl. by rewrite orb_false_r.
  - apply not_elem_of_cons in Hne as [Hne1 Hne].
    apply not_elem_of_cons in Hnd as [Hnd1 Hnd].
    rewrite isValid_loop_cons_skip by done.
    rewrite IH by done. simpl. by rewrite orb_assoc.
Qed.

Lemma existsb_bang_Permutation (l l' : list string) :
  l ≡ₚ l' → existsb bang l = existsb bang l'.
Proof.
  induction 1 as [|x l l' _ IH|x y l|l l' l'' _ IH1 _ IH2]; simpl.
  - done.
  - by rewrite IH.
  - by destruct (bang x), (bang y).
  - congruence.
Qed.

Lemma isValid_only_eq (items : list string) (actual : string) :
  actual ∈ items → ("!" +:+ actual) ∉ items → isValid items actual = true.
Proof.
  intros Hin Hnd. apply list_elem_of_split in Hin as (pre & post & ->).
  apply isValid_loop_first_eq. intros Hd. apply Hnd.
  apply elem_of_app. by left.
Qed.

Lemma isValid_only_deny (items : list string) (actual : string) :
  actual ∉ items → ("!" +:+ actual) ∈ items → isValid items actual = false.
Proof.
  intros Hne Hin. apply list_elem_of_split in Hin as (pre & post & ->).
  apply isValid_loop_first_deny. intros Hd. apply Hne.
  apply elem_of_app. by left.
Qed.

Lemma existsb_bang_false (items : list string) :
  Forall (λ item, bang item = false) items → existsb bang items = false.
Proof. induction 1 as [|item items Hb _ IH]; simpl; [done|]. by rewrite Hb. Qed.

(** A list of blacklist entries only: after the first entry the flag is
    set, so a non-empty such list runs the loop with the flag set. *)
Lemma isValid_loop_blacklist_flag (items : list string) (actual : string) :
  items ≠ [] → Forall (λ item, bang item = true) items →
  isValid_loop items actual false = isValid_loop items actual true.
Proof.
  intros Hne Hall. destruct Hall as [|item items Hb _]; [done|].
  cbn [isValid_loop]. by rewrite Hb.
Qed.

Lemma isValid_loop_blacklist (items : list string) (actual : string) :
  Forall (λ item, bang item = true) items →
  isValid_loop items actual true = true ↔
  ∀ pre item post,
    items = pre ++ item :: post → slice1 item = actual → actual ∈ pre.
Proof.
  induction 1 as [|x items Hb _ IH].
  - split; [|done]. intros _ pre item post Heq. by destruct pre.
  - destruct (decide (x = actual)) as [->|Hne].
    { rewrite isValid_loop_cons_eq. split; [|done].
      intros _ [|y pre] item post Heq Hs; injection Heq as Hi Hp.
      - rewrite <- Hi in Hs. by destruct (bang_slice1_ne actual).
      - rewrite <- Hi. left. }
    destruct (decide (x = "!" +:+ actual)) as [->|Hnd].
    { rewrite isValid_loop_cons_deny. split; [done|].
      intros Hall. specialize (Hall [] ("!" +:+ actual) items eq_refl eq_refl).
      by apply elem_of_nil in Hall. }
    rewrite isValid_loop_cons_skip by done. rewrite orb_true_l, IH.
    split.
    + intros Hall [|y pre] item post Heq Hs; injection Heq as Hi Hp.
      * destruct Hnd. apply denies_iff. by rewrite Hi, Hs, <- Hi.
      * right. by eapply Hall.
    + intros Hall pre item post -> Hs.
      specialize (Hall (x :: pre) item post eq_refl Hs).
      apply elem_of_cons in Hall as [->|Hin]; done.
Qed.

(** C1, as the specification states it, fails: with the blacklist entry
    first, ["linux"] is rejected although the plain entry ["linux"] is in
    the list, and swapping the two entries changes the result. *)
Lemma isValid_plain_match_counterexample :
  "linux" ∈ ["!linux"; "linux"] ∧ bang "linux" = false ∧
  isValid ["!linux"; "linux"] "linux" = false ∧
  ["linux"; "!linux"] ≡ₚ ["!linux"; "linux"] ∧
  isValid ["linux"; "!linux"] "linux" = true.
Proof.
  split_and!; [|reflexivity|reflexivity| |reflexivity].
  - right. left.
  - apply perm_swap.
Qed.

(** C1 (amended).  Of the entries equal to [actual] or to ['!' + actual],
    the first one decides: [isValid] is true when an entry equal to
    [actual] comes before every entry ['!' + actual], and false when an
    entry ['!' + actual] comes before every entry equal to [actual].
    Reordering a list that does not hold both [actual] and ['!' + actual]
    leaves the result unchanged. *)
Theorem isValid_first_match_decides (items : list string) (actual : string) :
  (∀ pre post, items = pre ++ actual :: post → ("!" +:+ actual) ∉ pre →
     isValid items actual = true) ∧
  (∀ pre post, items = pre ++ ("!" +:+ actual) :: post → actual ∉ pre →
     isValid items actual = false) ∧
  (∀ items', items' ≡ₚ items →
     ¬ (actual ∈ items ∧ ("!" +:+ actual) ∈ items) →
     isValid items' actual = isValid items actual).
Proof.
  split_and!.
  - intros pre post -> Hpre. by apply isValid_loop_first_eq.
  - intros pre post -> Hpre. by apply isValid_loop_first_deny.
  - intros items' Hperm Hboth.
    destruct (decide (actual ∈ items)) as [Hin|Hne];
      destruct (decide (("!" +:+ actual) ∈ items)) as [Hd|Hnd].
    + destruct Hboth. done.
    + rewrite !isValid_only_eq; rewrite ?Hperm; done.
    + rewrite !isValid_only_deny; rewrite ?Hperm; done.
    + unfold isValid. rewrite !isValid_loop_no_hit; rewrite ?Hperm; try done.
      f_equal. by apply existsb_bang_Permutation.
Qed.

Lemma isValid_first_match_decides_witness :
  isValid ["win32"; "linux"; "!linux"] "linux" = true ∧
  isValid ["win32"; "!linux"; "linux"] "linux" = false ∧
  isValid ["win32"; "!linux"] "darwin" = isValid ["!linux"; "win32"] "darwin".
Proof.
  split_and!.
  - apply (proj1 (isValid_first_match_decides _ "linux") ["win32"] ["!linux"]).
    + reflexivity.
    + apply (bool_decide_unpack _). vm_compute. exact I.
  - apply (proj1 (proj2 (isValid_first_match_decides _ "linux"))
             ["win32"] ["linux"]).
    + reflexivity.
    + apply (bool_decide_unpack _). vm_compute. exact I.
  - apply (proj2 (proj2 (isValid_first_match_decides _ "darwin"))).
    + apply perm_swap.
    + apply (bool_decide_unpack _). vm_compute. exact I.
Defined.

(** C5.  A list of plain entries only accepts exactly its members; the
    empty list accepts nothing. *)
Theorem isValid_whitelist (items : list string) (actual : string) :
  Forall (λ item, bang item = false) items →
  (isValid items actual = true ↔ actual ∈ items) ∧
  isValid [] actual = false.
Proof.
  intros Hplain. split; [|done].
  assert (("!" +:+ actual) ∉ items) as Hnd.
  { intros Hd. rewrite Forall_forall in Hplain.
    by specialize (Hplain _ Hd). }
  split.
  - intros Hv. destruct (decide (actual ∈ items)) as [|Hne]; [done|].
    unfold isValid in Hv. rewrite isValid_loop_no_hit in Hv by done.
    by rewrite existsb_bang_false in Hv.
  - intros Hin. by apply isValid_only_eq.
Qed.

Lemma isValid_whitelist_witness :
  (isValid ["linux"; "darwin"] "darwin" = true ↔
     "darwin" ∈ ["linux"; "darwin"]) ∧
  isValid [] "darwin" = false.
Proof.
  apply (isValid_whitelist ["linux"; "darwin"] "darwin").
  repeat constructor.
Defined.

(** C6, as the specification states it, fails when [actual] itself
    starts with ['!']: the entry ["!x"] is identical to the actual value
    ["!x"] and accepts it before the entry ["!!x"], whose de-prefixed
    token is ["!x"], is reached. *)
Lemma isValid_blacklist_counterexample :
  Forall (λ item, bang item = true) ["!x"; "!!x"] ∧
  "!x" ∈ slice1 <$> ["!x"; "!!x"] ∧
  isValid ["!x"; "!!x"] "!x" = true.
Proof.
  split_and!; [by repeat constructor| |reflexivity].
  right. left.
Qed.

(** C6 (amended).  For a non-empty list of blacklist entries only,
    [isValid] is true iff every entry whose de-prefixed token equals
    [actual] has an entry identical to [actual] before it; when [actual]
    does not start with ['!'] no entry can be identical to it, and
    [isValid] is true iff [actual] equals no de-prefixed token. *)
Theorem isValid_blacklist (items : list string) (actual : string) :
  items ≠ [] → Forall (λ item, bang item = true) items →
  (isValid items actual = true ↔
     ∀ pre item post,
       items = pre ++ item :: post → slice1 item = actual → actual ∈ pre) ∧
  (bang actual = false →
     (isValid items actual = true ↔ actual ∉ slice1 <$> items)).
Proof.
  intros Hne Hall.
  assert (isValid items actual = true ↔
          ∀ pre item post,
            items = pre ++ item :: post → slice1 item = actual → actual ∈ pre)
    as Hchar.
  { unfold isValid. rewrite isValid_loop_blacklist_flag by done.
    by apply isValid_loop_blacklist. }
  split; [done|].
  intros Hplain. rewrite Hchar. split.
  - intros Hpre Hin. apply list_elem_of_fmap in Hin as (item & Hs & Hin).
    apply list_elem_of_split in Hin as (pre & post & ->).
    specialize (Hpre pre item post eq_refl (eq_sym Hs)).
    rewrite Forall_forall in Hall.
    assert (bang actual = true) as Hb;
      [apply Hall, elem_of_app; by left|congruence].
  - intros Hnin pre item post -> Hs. destruct Hnin.
    apply list_elem_of_fmap. exists item. split; [done|].
    apply elem_of_app. right. left.
Qed.

Lemma isValid_blacklist_witness :
  (isValid ["!win32"; "!darwin"] "linux" = true ↔
     ∀ pre item post,
       ["!win32"; "!darwin"] = pre ++ item :: post →
       slice1 item = "linux" → "linux" ∈ pre) ∧
  (bang "linux" = false →
     (isValid ["!win32"; "!darwin"] "linux" = true ↔
        "linux" ∉ slice1 <$> ["!win32"; "!darwin"])).
Proof.
  apply (isValid_blacklist ["!win32"; "!darwin"] "linux").
  - discriminate.
  - repeat constructor.
Defined.

(** C10, as stated for every list, fails: the entry ["!x"] is equal to
    the actual value ["!x"], yet the earlier entry ["!!x"] denies it. *)
Lemma isValid_equal_entry_counterexample :
  "!x" ∈ ["!!x"; "!x"] ∧ isValid ["!!x"; "!x"] "!x" = false.
Proof. split; [|reflexivity]. right. left. Qed.

(** C10 (amended).  An entry equal to [actual] makes [isValid] true,
    whether or not it starts with ['!'], provided no entry before it is
    ['!' + actual]: each entry is compared with [actual] in full before
    its ['!'] is looked at.  So [isValid ["!linux"] "!linux"] is true. *)
Theorem isValid_equal_entry (pre post : list string) (actual : string) :
  Forall (λ item, item ≠ "!" +:+ actual) pre →
  isValid (pre ++ actual :: post) actual = true ∧
  isValid (("!" +:+ actual) :: post) ("!" +:+ actual) = true ∧
  isValid ["!linux"] "!linux" = true.
Proof.
  intros Hpre. split_and!; [|apply isValid_loop_cons_eq|reflexivity].
  apply isValid_loop_first_eq. intros Hin.
  rewrite Forall_forall in Hpre. by destruct (Hpre _ Hin).
Qed.

Lemma isValid_equal_entry_witness :
  isValid (["!win32"] ++ "!linux" :: ["darwin"]) "!linux" = true ∧
  isValid (("!" +:+ "!linux") :: ["darwin"]) ("!" +:+ "!linux") = true ∧
  isValid ["!linux"] "!linux" = true.
Proof.
  apply (isValid_equal_entry ["!win32"] ["darwin"] "!linux").
  repeat constructor. discriminate.
Defined.


(** *** Further properties of the matcher *)

Lemma isValid_loop_decided_app (items more : list string) (actual : string)
    (b : bool) :
  actual ∈ items ∨ ("!" +:+ actual) ∈ items →
  isValid_loop (items ++ more) actual b = isValid_loop items actual b.
Proof.
  revert b. induction items as [|item items IH]; intros b Hhit.
  - destruct Hhit as [Hin|Hin]; by apply elem_of_nil in Hin.
  - rewrite <- app_comm_cons.
    destruct (decide (item = actual)) as [->|Hne].
    { by rewrite !isValid_loop_cons_eq. }
    destruct (decide (item = "!" +:+ actual)) as [->|Hnd].
    { by rewrite !isValid_loop_cons_deny. }
    rewrite !isValid_loop_cons_skip by done. apply IH.
    destruct Hhit as [Hin|Hin]; apply elem_of_cons in Hin as [Heq|Hin];
      [congruence|by left|congruence|by right].
Qed.

(** X1.  What [isValid] decides, for every list: it is true exactly when
    an entry equal to [actual] occurs with no entry ['!' + actual] before
    it, or when neither [actual] nor ['!' + actual] occurs and some entry
    starts with ['!']. *)
Theorem isValid_decision (items : list string) (actual : string) :
  isValid items actual = true ↔
  (∃ pre post, items = pre ++ actual :: post ∧ ("!" +:+ actual) ∉ pre) ∨
  ((actual ∉ items) ∧ (("!" +:+ actual) ∉ items) ∧
   ∃ item, item ∈ items ∧ bang item = true).
Proof.
  split.
  - intros Hv. destruct (decide (actual ∈ items)) as [Hin|Hne].
    + left. apply list_elem_of_split_l in Hin as (pre & post & -> & Hpre).
      exists pre, post. split; [done|]. intros Hd.
      apply list_elem_of_split in Hd as (p1 & p2 & ->).
      unfold isValid in Hv. rewrite <- app_assoc, <- app_comm_cons in Hv.
      rewrite isValid_loop_first_deny in Hv; [done|].
      intros Hp1. apply Hpre, elem_of_app. by left.
    + right. destruct (decide (("!" +:+ actual) ∈ items)) as [Hd|Hnd].
      { by rewrite isValid_only_deny in Hv. }
      split_and!; [done|done|].
      unfold isValid in Hv. rewrite isValid_loop_no_hit in Hv by done.
      apply existsb_exists in Hv as (item & Hin & Hb).
      exists item. by rewrite list_elem_of_In.
  - intros [(pre & post & -> & Hpre)|(Hne & Hnd & item & Hin & Hb)].
    + by apply isValid_loop_first_eq.
    + unfold isValid. rewrite isValid_loop_no_hit by done.
      apply existsb_exists. exists item. by rewrite <- list_elem_of_In.
Qed.

(** X2.  The scan stops at the first decisive entry: once a list holds
    an entry equal to [actual] or to ['!' + actual], entries appended to
    it do not change the result. *)
Theorem isValid_decided_app (items more : list string) (actual : string) :
  actual ∈ items ∨ ("!" +:+ actual) ∈ items →
  isValid (items ++ more) actual = isValid items actual.
Proof. apply isValid_loop_decided_app. Qed.

Lemma isValid_decided_app_witness :
  isValid (["!linux"; "win32"] ++ ["linux"; "darwin"]) "linux" =
  isValid ["!linux"; "win32"] "linux".
Proof.
  apply (isValid_decided_app ["!linux"; "win32"] ["linux"; "darwin"] "linux").
  right. apply (bool_decide_unpack _). vm_compute. exact I.
Defined.

(** X3.  A plain entry for another value never matters: dropping every
    entry that neither starts with ['!'] nor equals [actual] leaves the
    result as it was. *)
Theorem isValid_other_plain_entries (items : list string) (actual : string) :
  isValid (List.filter (λ item, bang item || String.eqb item actual) items)
    actual =
  isValid items actual.
Proof.
  unfold isValid. generalize false as b.
  induction items as [|item items IH]; intros b; [done|].
  cbn [List.filter].
  destruct (decide (item = actual)) as [->|Hne].
  { by rewrite String.eqb_refl, orb_true_r, !isValid_loop_cons_eq. }
  destruct (decide (item = "!" +:+ actual)) as [->|Hnd].
  { by rewrite bang_cons, orb_true_l, !isValid_loop_cons_deny. }
  destruct (String.eqb_spec item actual) as [|_]; [done|].
  rewrite orb_false_r. destruct (bang item) eqn:Hb.
  - rewrite !isValid_loop_cons_skip by done. apply IH.
  - rewrite isValid_loop_cons_skip, Hb, orb_false_r by done. apply IH.
Qed.

(** X4.  Appending an entry the list already holds changes nothing. *)
Theorem isValid_app_duplicate (items : list string) (item actual : string) :
  item ∈ items → isValid (items ++ [item]) actual = isValid items actual.
Proof.
  intros Hin.
  destruct (decide (actual ∈ items ∨ ("!" +:+ actual) ∈ items)) as [Hhit|Hno].
  { by apply isValid_loop_decided_app. }
  assert (actual ∉ items) as Hne by (intros ?; apply Hno; by left).
  assert (("!" +:+ actual) ∉ items) as Hnd by (intros ?; apply Hno; by right).
  assert (item ≠ actual) as Hia by (by intros ->).
  assert (item ≠ "!" +:+ actual) as Hid by (by intros ->).
  unfold isValid. rewrite !isValid_loop_no_hit; try done.
  - rewrite existsb_app. cbn [existsb]. rewrite orb_false_r.
    destruct (bang item) eqn:Hb; [|by rewrite orb_false_r].
    rewrite orb_true_r. symmetry. apply existsb_exists.
    exists item. by rewrite <- list_elem_of_In.
  - intros Hd. apply elem_of_app in Hd as [?|Hd]; [done|].
    by apply list_elem_of_singleton in Hd.
  - intros Hd. apply elem_of_app in Hd as [?|Hd]; [done|].
    by apply list_elem_of_singleton in Hd.
Qed.

Lemma isValid_app_duplicate_witness :
  isValid (["!linux"; "win32"] ++ ["!linux"]) "darwin" =
  isValid ["!linux"; "win32"] "darwin".
Proof.
  apply (isValid_app_duplicate ["!linux"; "win32"] "!linux" "darwin").
  apply (bool_decide_unpack _). vm_compute. exact I.
Defined.

(** ** The effect monad *)

Lemma eff_bind_ret {A B} (a : A) (f : A → Eff B) : mret a ≫= f = f a.
Proof. unfold mbind, Eff_bind, eff_bind. simpl. by destruct (f a). Qed.

Lemma eff_bind_emit {B} (ev : Event) (f : unit → Eff B) :
  emit ev ≫= f = (ev :: (f ()).1, (f ()).2).
Proof. reflexivity. Qed.

Lemma eff_bind_throw {A B} (e : Exn) (f : A → Eff B) :
  throw e ≫= f = throw e.
Proof. reflexivity. Qed.

Lemma eff_bind_normal {A B} (tr : list Event) (a : A) (f : A → Eff B) :
  (tr, Normal a) ≫= f = (tr ++ (f a).1, (f a).2).
Proof. reflexivity. Qed.

Lemma eff_ret_bind {A} (m : Eff A) : m ≫= mret = m.
Proof.
  destruct m as [tr [a|e]]; unfold mbind, Eff_bind, eff_bind; simpl; [|done].
  by rewrite app_nil_r.
Qed.

Lemma eff_bind_assoc {A B C} (m : Eff A) (f : A → Eff B) (g : B → Eff C) :
  (m ≫= f) ≫= g = m ≫= (λ a, f a ≫= g).
Proof.
  destruct m as [tr [a|e]]; unfold mbind, Eff_bind, eff_bind; simpl; [|done].
  destruct (f a) as [tr' [b|e']]; simpl; [|done].
  by rewrite app_assoc.
Qed.

Lemma eff_bind_ext {A B} (m : Eff A) (f g : A → Eff B) :
  (∀ a, f a = g a) → m ≫= f = m ≫= g.
Proof.
  intros Hfg. destruct m as [tr [a|e]]; unfold mbind, Eff_bind, eff_bind;
    simpl; [|done].
  by rewrite Hfg.
Qed.

(** ** CompatibilityChecker *)

Section CheckerProperties.

Context (semver_satisfies : option string → string → SemverResult)
  (lodash_has_path : gmap string string → string → bool)
  (process : Process).

Local Abbreviation isValidPlatform := (isValidPlatform process).
Local Abbreviation isValidArch := (isValidArch process).
Local Abbreviation lodash_has := (lodash_has lodash_has_path).
Local Abbreviation satisfies := (satisfies semver_satisfies).
Local Abbreviation checkEngine :=
  (checkEngine semver_satisfies lodash_has_path process).
Local Abbreviation check := (check semver_satisfies lodash_has_path process).
Local Abbreviation init := (init semver_satisfies lodash_has_path process).
Local Abbreviation os_findings := (os_findings process).
Local Abbreviation cpu_findings := (cpu_findings process).
Local Abbreviation engine_findings :=
  (engine_findings semver_satisfies lodash_has_path process).
Local Abbreviation engine_fault :=
  (engine_fault semver_satisfies lodash_has_path process).
Local Abbreviation engines_run :=
  (engines_run semver_satisfies lodash_has_path process).
Local Abbreviation engines_findings :=
  (engines_findings semver_satisfies lodash_has_path process).
Local Abbreviation fault := (fault semver_satisfies lodash_has_path process).
Local Abbreviation findings :=
  (findings semver_satisfies lodash_has_path process).
Local Abbreviation violations :=
  (violations semver_satisfies lodash_has_path process).
Local Abbreviation os_violated := (os_violated process).
Local Abbreviation cpu_violated := (cpu_violated process).
Local Abbreviation engines_violated :=
  (engines_violated semver_satisfies lodash_has_path process).
Local Abbreviation semver_throws :=
  (semver_throws semver_satisfies lodash_has_path process).

(** *** [check] is its findings, reported, then its ending *)

Lemma report_app (info : Manifest) (st : Locals) (fs gs : list Finding) :
  report info st (fs ++ gs) = st' ← report info st fs; report info st' gs.
Proof.
  revert st. induction fs as [|[msg|msg] fs IH]; intros st; cbn [report app].
  - by rewrite eff_bind_ret.
  - rewrite eff_bind_assoc. apply eff_bind_ext. intros st'. apply IH.
  - rewrite eff_bind_assoc. apply eff_bind_ext. intros _. apply IH.
Qed.

Lemma eff_bind_cong {A B} (m m' : Eff A) (f g : A → Eff B) :
  m = m' → (∀ a, f a = g a) → m ≫= f = m' ≫= g.
Proof. intros ->. apply eff_bind_ext. Qed.

Lemma report_violation (info : Manifest) (st : Locals) (msg : string) :
  report info st [Violation msg] = pushError info st msg.
Proof. cbn [report]. apply eff_ret_bind. Qed.

Lemma os_stage_report (info : Manifest) (st : Locals) :
  match os info with
  | Some platforms =>
      if negb (isValidPlatform platforms) then
        pushError info st
          ("The platform " +:+ platform process +:+
           " is incompatible with this module.")
      else mret st
  | None => mret st
  end = report info st (os_findings info).
Proof.
  unfold os_findings, isValidPlatform.
  destruct (os info) as [platforms|]; [|done].
  destruct (isValid platforms (platform process)); [done|].
  symmetry. apply report_violation.
Qed.

Lemma cpu_stage_report (info : Manifest) (st : Locals) :
  match cpu info with
  | Some archs =>
      if negb (isValidArch archs) then
        pushError info st
          ("The CPU architecture " +:+ arch process +:+
           " is incompatible with this module.")
      else mret st
  | None => mret st
  end = report info st (cpu_findings info).
Proof.
  unfold cpu_findings, isValidArch.
  destruct (cpu info) as [archs|]; [|done].
  destruct (isValid archs (arch process)); [done|].
  symmetry. apply report_violation.
Qed.

Lemma checkEngine_report (info : Manifest) (st : Locals)
    (entry : string * string) :
  checkEngine info st entry =
  match engine_fault entry with
  | Some msg => throw (TypeError msg)
  | None => report info st (engine_findings entry)
  end.
Proof.
  unfold checkEngine, engine_fault, engine_findings, satisfies.
  destruct (lodash_has (versions process) (resolveAlias entry.1)).
  - destruct (semver_satisfies _ _) as [[]|msg].
    + by rewrite eff_bind_ret.
    + rewrite eff_bind_ret. symmetry. apply report_violation.
    + done.
  - by destruct (bool_decide (resolveAlias entry.1 ∈ ignore)).
Qed.

Lemma for_of_checkEngine_report (info : Manifest)
    (entries : list (string * string)) (st : Locals) :
  for_of entries (checkEngine info) st =
  st' ← report info st (engines_run entries).1;
  match (engines_run entries).2 with
  | Some msg => throw (TypeError msg)
  | None => mret st'
  end.
Proof.
  revert st. induction entries as [|entry entries IH]; intros st.
  { cbn [for_of engines_run fst snd report]. by rewrite eff_bind_ret. }
  cbn [for_of engines_run]. rewrite checkEngine_report.
  destruct (engine_fault entry) as [msg|]; cbn [fst snd].
  - cbn [report]. by rewrite eff_bind_ret.
  - rewrite report_app, eff_bind_assoc. by apply eff_bind_ext.
Qed.

Lemma engines_stage_report (info : Manifest) (st : Locals) :
  match engines info with
  | Some entries => for_of entries (checkEngine info) st
  | None => mret st
  end ≫= finish =
  report info st (engines_findings info) ≫= ending (fault info).
Proof.
  unfold engines_findings, fault. destruct (engines info) as [entries|].
  - rewrite for_of_checkEngine_report, eff_bind_assoc.
    apply eff_bind_ext. intros st'.
    destruct (engines_run entries).2; [done|]. by rewrite eff_bind_ret.
  - done.
Qed.

Lemma check_report (info : Manifest) :
  check info =
  report info {| didIgnore := false; didError := false |} (findings info)
    ≫= ending (fault info).
Proof.
  unfold check, findings. rewrite report_app, eff_bind_assoc.
  apply eff_bind_cong; [apply os_stage_report|]. intros st1.
  rewrite report_app, eff_bind_assoc.
  apply eff_bind_cong; [apply cpu_stage_report|]. intros st2.
  apply (engines_stage_report info st2).
Qed.

(** *** The three kinds of reference *)

Lemma pushError_required (info : Manifest) (ref : PackageReference)
    (st : Locals) (msg : string) :
  reference info = Some ref → optional ref = false →
  pushError info st msg =
  ([ReporterError (human info +:+ ": " +:+ msg)],
   Normal {| didIgnore := didIgnore st; didError := true |}).
Proof. intros Href Hopt. unfold pushError. by rewrite Href, Hopt. Qed.

Lemma pushError_optional (info : Manifest) (ref : PackageReference)
    (st : Locals) (msg : string) :
  reference info = Some ref → optional ref = true →
  pushError info st msg =
  (RefAddIgnore (ref_id ref) true ::
   ReporterWarn (human info +:+ ": " +:+ msg) ::
   (if didIgnore st then [] else [ReporterInfo (excluding_msg info)]),
   Normal (if didIgnore st then st
           else {| didIgnore := true; didError := didError st |})).
Proof.
  intros Href Hopt. unfold pushError. rewrite Href, Hopt.
  by destruct (didIgnore st).
Qed.

Lemma pushError_missing (info : Manifest) (st : Locals) (msg : string) :
  reference info = None →
  pushError info st msg =
  ([], Throw (InvariantViolation "expected package reference")).
Proof. intros Href. unfold pushError. by rewrite Href. Qed.

Lemma report_required (info : Manifest) (ref : PackageReference)
    (st : Locals) (fs : list Finding) :
  reference info = Some ref → optional ref = false →
  report info st fs =
  (required_event info <$> fs,
   Normal match omap violation_of fs with
          | [] => st
          | _ => {| didIgnore := didIgnore st; didError := true |}
          end).
Proof.
  intros Href Hopt. revert st.
  induction fs as [|[msg|msg] fs IH]; intros st; cbn [report]; [done| |].
  - rewrite (pushError_required info ref), eff_bind_normal, IH by done.
    simpl. by destruct (omap violation_of fs).
  - by rewrite eff_bind_emit, IH.
Qed.

Lemma report_optional (info : Manifest) (ref : PackageReference)
    (st : Locals) (fs : list Finding) :
  reference info = Some ref → optional ref = true →
  report info st fs =
  (optional_events info ref (didIgnore st) fs,
   Normal match omap violation_of fs with
          | [] => st
          | _ => {| didIgnore := true; didError := didError st |}
          end).
Proof.
  intros Href Hopt. revert st.
  induction fs as [|[msg|msg] fs IH]; intros st; cbn [report]; [done| |].
  - rewrite (pushError_optional info ref), eff_bind_normal, IH by done.
    destruct st as [[] err]; simpl; by destruct (omap violation_of fs).
  - by rewrite eff_bind_emit, IH.
Qed.

Lemma report_missing (info : Manifest) (st : Locals) (fs : list Finding) :
  reference info = None →
  report info st fs =
  ((λ msg, ReporterWarn (human info +:+ ": " +:+ msg)) <$>
     advisories_before fs,
   match omap violation_of fs with
   | [] => Normal st
   | _ => Throw (InvariantViolation "expected package reference")
   end).
Proof.
  intros Href. revert st.
  induction fs as [|[msg|msg] fs IH]; intros st; cbn [report]; [done| |].
  - by rewrite pushError_missing.
  - rewrite eff_bind_emit, IH. reflexivity.
Qed.

Lemma check_required_eq (info : Manifest) (ref : PackageReference) :
  reference info = Some ref → optional ref = false →
  check info =
  (required_event info <$> findings info,
   match fault info with
   | Some msg => Throw (TypeError msg)
   | None =>
       match violations info with
       | [] => Normal ()
       | _ => Throw (MessageError "Found incompatible module")
       end
   end).
Proof.
  intros Href Hopt.
  rewrite check_report, (report_required info ref), eff_bind_normal by done.
  unfold violations.
  destruct (fault info), (omap violation_of (findings info)); simpl;
    by rewrite app_nil_r.
Qed.

Lemma check_optional_eq (info : Manifest) (ref : PackageReference) :
  reference info = Some ref → optional ref = true →
  check info =
  (optional_events info ref false (findings info),
   match fault info with
   | Some msg => Throw (TypeError msg)
   | None => Normal ()
   end).
Proof.
  intros Href Hopt.
  rewrite check_report, (report_optional info ref), eff_bind_normal by done.
  destruct (fault info), (omap violation_of (findings info)); simpl;
    by rewrite app_nil_r.
Qed.

Lemma check_missing_eq (info : Manifest) :
  reference info = None →
  check info =
  ((λ msg, ReporterWarn (human info +:+ ": " +:+ msg)) <$>
     advisories_before (findings info),
   match violations info with
   | [] =>
       match fault info with
       | Some msg => Throw (TypeError msg)
       | None => Normal ()
       end
   | _ => Throw (InvariantViolation "expected package reference")
   end).
Proof.
  intros Href. rewrite check_report, report_missing by done.
  unfold violations. destruct (omap violation_of (findings info)); [|done].
  rewrite eff_bind_normal. destruct (fault info); simpl; by rewrite app_nil_r.
Qed.

(** *** Violations and faults, in the code's terms *)

Lemma engine_fault_Some (entry : string * string) (msg : string) :
  engine_fault entry = Some msg ↔
  lodash_has (versions process) (resolveAlias entry.1) = true ∧
  semver_satisfies (versions process !! resolveAlias entry.1) entry.2 =
    SemverThrow msg.
Proof.
  unfold engine_fault.
  destruct (lodash_has (versions process) (resolveAlias entry.1)).
  - destruct (semver_satisfies _ _) as [sat|msg'].
    + split; [done|]. by intros [_ ?].
    + split; [by intros [= ->]|]. by intros [_ [= ->]].
  - split; [done|]. by intros [? _].
Qed.

Lemma engine_findings_violation (entry : string * string) :
  omap violation_of (engine_findings entry) ≠ [] ↔
  lodash_has (versions process) (resolveAlias entry.1) = true ∧
  semver_satisfies (versions process !! resolveAlias entry.1) entry.2 =
    SemverReturn false.
Proof.
  unfold engine_findings.
  destruct (lodash_has (versions process) (resolveAlias entry.1)).
  - destruct (semver_satisfies _ _) as [[]|msg]; simpl.
    + split; [done|]. by intros [_ ?].
    + by split.
    + split; [done|]. by intros [_ ?].
  - destruct (bool_decide _); simpl; (split; [done|]); by intros [? _].
Qed.

Lemma engines_run_fault (entries : list (string * string)) (msg : string) :
  (engines_run entries).2 = Some msg →
  ∃ name range,
    (name, range) ∈ entries ∧
    lodash_has (versions process) (resolveAlias name) = true ∧
    semver_satisfies (versions process !! resolveAlias name) range =
      SemverThrow msg.
Proof.
  induction entries as [|[name range] entries IH]; [done|].
  cbn [engines_run].
  destruct (engine_fault (name, range)) as [msg'|] eqn:Hf; cbn [snd].
  - intros [= ->]. apply engine_fault_Some in Hf as [Hhas Hthrow].
    exists name, range. split; [left|done].
  - intros Hrest. destruct (IH Hrest) as (name' & range' & Hin & Hrest').
    exists name', range'. split; [by right|done].
Qed.

Lemma engines_run_no_fault (entries : list (string * string)) :
  (∀ entry, entry ∈ entries → engine_fault entry = None) →
  engines_run entries = (flat_map engine_findings entries, None).
Proof.
  induction entries as [|entry entries IH]; intros Hall; [done|].
  cbn [engines_run flat_map]. rewrite (Hall entry) by left.
  rewrite IH; [done|]. intros entry' Hin. apply Hall. by right.
Qed.

Lemma fault_throws (info : Manifest) :
  fault info ≠ None ↔ semver_throws info.
Proof.
  unfold fault, semver_throws. destruct (engines info) as [entries|].
  - split.
    + intros Hf. destruct (engines_run entries).2 as [msg|] eqn:Hrun; [|done].
      apply engines_run_fault in Hrun as (name & range & Hin & Hhas & Hthrow).
      by exists entries, name, range, msg.
    + intros (? & name & range & msg & [= <-] & Hin & Hhas & Hthrow) Hnone.
      assert (∀ entry, entry ∈ entries → engine_fault entry = None) as Hall.
      { intros entry Hentry.
        destruct (engine_fault entry) as [msg'|] eqn:Hf; [|done].
        clear Hin. induction entries as [|e entries IH].
        - by apply elem_of_nil in Hentry.
        - cbn [engines_run] in Hnone.
          destruct (engine_fault e) as [m|] eqn:He; [done|].
          cbn [snd] in Hnone.
          apply elem_of_cons in Hentry as [->|Hentry]; [congruence|].
          by apply IH. }
      specialize (Hall (name, range) Hin).
      assert (engine_fault (name, range) = Some msg) as Hsome
        by by apply engine_fault_Some.
      congruence.
  - split; [done|]. by intros (? & ? & ? & ? & ? & _).
Qed.

Lemma fault_not_throws (info : Manifest) :
  ¬ semver_throws info → fault info = None.
Proof.
  intros Hno. destruct (fault info) as [msg|] eqn:Hf; [|done].
  destruct Hno. apply fault_throws. by rewrite Hf.
Qed.

Lemma flat_map_findings_violation (entries : list (string * string)) :
  omap violation_of (flat_map engine_findings entries) ≠ [] ↔
  ∃ name range,
    (name, range) ∈ entries ∧
    lodash_has (versions process) (resolveAlias name) = true ∧
    semver_satisfies (versions process !! resolveAlias name) range =
      SemverReturn false.
Proof.
  induction entries as [|entry entries IH]; cbn [flat_map].
  - split; [done|]. intros (? & ? & Hin & _). by apply elem_of_nil in Hin.
  - rewrite omap_app. split.
    + intros Hne.
      destruct (omap violation_of (engine_findings entry)) eqn:Hhd.
      * apply IH in Hne as (name & range & Hin & Hv).
        exists name, range. split; [by right|done].
      * assert (omap violation_of (engine_findings entry) ≠ []) as Hv
          by by rewrite Hhd.
        apply engine_findings_violation in Hv.
        destruct entry as [name range]. exists name, range.
        split; [left|done].
    + intros (name & range & Hin & Hv).
      apply elem_of_cons in Hin as [<-|Hin].
      * assert (omap violation_of (engine_findings (name, range)) ≠ []) as Hne
          by by apply engine_findings_violation.
        by destruct (omap violation_of (engine_findings (name, range))).
      * assert (omap violation_of (flat_map engine_findings entries) ≠ [])
          as Hne by (apply IH; by exists name, range).
        intros Heq. by apply app_eq_nil in Heq as [_ ?].
Qed.

Lemma engines_run_violation (entries : list (string * string)) :
  omap violation_of (engines_run entries).1 ≠ [] →
  ∃ name range,
    (name, range) ∈ entries ∧
    lodash_has (versions process) (resolveAlias name) = true ∧
    semver_satisfies (versions process !! resolveAlias name) range =
      SemverReturn false.
Proof.
  induction entries as [|[name range] entries IH]; [done|].
  cbn [engines_run]. destruct (engine_fault (name, range)); [done|].
  cbn [fst]. rewrite omap_app. intros Hne.
  destruct (omap violation_of (engine_findings (name, range))) eqn:Hhd.
  - destruct (IH Hne) as (name' & range' & Hin & Hv).
    exists name', range'. split; [by right|done].
  - assert (omap violation_of (engine_findings (name, range)) ≠ []) as Hv
      by by rewrite Hhd.
    apply engine_findings_violation in Hv.
    exists name, range. split; [left|done].
Qed.

Lemma os_findings_violation (info : Manifest) :
  omap violation_of (os_findings info) ≠ [] ↔ os_violated info.
Proof.
  unfold os_findings, os_violated, isValidPlatform.
  destruct (os info) as [platforms|]; simpl.
  - destruct (isValid platforms (platform process)) eqn:Hv; simpl.
    + split; [done|]. intros (l & [= <-] & Hf). congruence.
    + split; [|done]. intros _. by exists platforms.
  - split; [done|]. by intros (? & ? & _).
Qed.

Lemma cpu_findings_violation (info : Manifest) :
  omap violation_of (cpu_findings info) ≠ [] ↔ cpu_violated info.
Proof.
  unfold cpu_findings, cpu_violated, isValidArch.
  destruct (cpu info) as [archs|]; simpl.
  - destruct (isValid archs (arch process)) eqn:Hv; simpl.
    + split; [done|]. intros (l & [= <-] & Hf). congruence.
    + split; [|done]. intros _. by exists archs.
  - split; [done|]. by intros (? & ? & _).
Qed.

Lemma app3_nonempty {A} (l1 l2 l3 : list A) :
  l1 ++ l2 ++ l3 ≠ [] ↔ l1 ≠ [] ∨ l2 ≠ [] ∨ l3 ≠ [].
Proof. destruct l1, l2, l3; simpl; intuition congruence. Qed.

(** A violation the run reports is a violation of the manifest. *)
Lemma violations_violated (info : Manifest) :
  violations info ≠ [] →
  os_violated info ∨ cpu_violated info ∨ engines_violated info.
Proof.
  unfold violations, findings. rewrite !omap_app, app3_nonempty.
  rewrite os_findings_violation, cpu_findings_violation.
  intros [?|[?|Heng]]; [by left|by right; left|right; right].
  unfold engines_findings in Heng. unfold engines_violated.
  destruct (engines info) as [entries|]; [|done].
  apply engines_run_violation in Heng as (name & range & ?).
  by exists entries, name, range.
Qed.

Lemma engines_findings_no_throw (info : Manifest)
    (entries : list (string * string)) :
  engines info = Some entries → ¬ semver_throws info →
  engines_run entries = (flat_map engine_findings entries, None).
Proof.
  intros Heng Hno. apply engines_run_no_fault. intros [name range] Hin.
  destruct (engine_fault (name, range)) as [msg|] eqn:Hf; [|done].
  destruct Hno. apply engine_fault_Some in Hf as [Hhas Hthrow].
  by exists entries, name, range, msg.
Qed.

(** When [semver.satisfies] throws nowhere, every violation of the
    manifest is reported. *)
Lemma violations_nonempty (info : Manifest) :
  ¬ semver_throws info →
  violations info ≠ [] ↔
  os_violated info ∨ cpu_violated info ∨ engines_violated info.
Proof.
  intros Hno. split; [apply violations_violated|].
  unfold violations, findings. rewrite !omap_app, app3_nonempty.
  rewrite os_findings_violation, cpu_findings_violation.
  intros [?|[?|Heng]]; [by left|by right; left|right; right].
  destruct Heng as (entries & name & range & Heng & Hin & Hv).
  unfold engines_findings. rewrite Heng.
  rewrite (engines_findings_no_throw info entries) by done. cbn [fst].
  apply flat_map_findings_violation. by exists name, range.
Qed.

(** *** What the traces hold *)

Lemma omap_cons {A B} (f : A → option B) (x : A) (l : list A) :
  omap f (x :: l) =
  match f x with Some y => y :: omap f l | None => omap f l end.
Proof. reflexivity. Qed.

Lemma required_events_errors (info : Manifest) (fs : list Finding) :
  omap error_of (required_event info <$> fs) =
  (λ msg, human info +:+ ": " +:+ msg) <$> omap violation_of fs.
Proof.
  induction fs as [|[msg|msg] fs IH]; [done| |]; simpl.
  - f_equal. apply IH.
  - apply IH.
Qed.

Lemma optional_events_warns (info : Manifest) (ref : PackageReference)
    (ignored : bool) (fs : list Finding) :
  omap warn_of (optional_events info ref ignored fs) =
  (λ f, human info +:+ ": " +:+ finding_msg f) <$> fs.
Proof.
  revert ignored. induction fs as [|[msg|msg] fs IH]; intros ignored; [done| |].
  - cbn [optional_events]. rewrite !omap_cons, omap_app, IH.
    by destruct ignored.
  - cbn [optional_events]. by rewrite omap_cons, IH.
Qed.

Lemma optional_events_errors (info : Manifest) (ref : PackageReference)
    (ignored : bool) (fs : list Finding) :
  omap error_of (optional_events info ref ignored fs) = [].
Proof.
  revert ignored. induction fs as [|[msg|msg] fs IH]; intros ignored; [done| |].
  - cbn [optional_events]. rewrite !omap_cons, omap_app, IH.
    by destruct ignored.
  - cbn [optional_events]. by rewrite omap_cons, IH.
Qed.

Lemma optional_events_addIgnore (info : Manifest) (ref : PackageReference)
    (ignored : bool) (fs : list Finding) :
  omap addIgnore_of (optional_events info ref ignored fs) =
  replicate (length (omap violation_of fs)) (ref_id ref, true).
Proof.
  revert ignored. induction fs as [|[msg|msg] fs IH]; intros ignored; [done| |].
  - cbn [optional_events]. rewrite !omap_cons, omap_app, IH.
    by destruct ignored.
  - cbn [optional_events]. by rewrite omap_cons, IH.
Qed.

Lemma optional_events_info (info : Manifest) (ref : PackageReference)
    (ignored : bool) (fs : list Finding) :
  omap info_of (optional_events info ref ignored fs) =
  if ignored then []
  else match omap violation_of fs with
       | [] => []
       | _ => [excluding_msg info]
       end.
Proof.
  revert ignored. induction fs as [|[msg|msg] fs IH]; intros ignored.
  - by destruct ignored.
  - cbn [optional_events]. rewrite !omap_cons, omap_app, IH.
    by destruct ignored.
  - cbn [optional_events]. by rewrite omap_cons, IH.
Qed.

Lemma optional_events_first (info : Manifest) (ref : PackageReference)
    (fs : list Finding) (v : string) (vs : list string) :
  omap violation_of fs = v :: vs →
  ∃ post,
    optional_events info ref false fs =
    ((λ msg, ReporterWarn (human info +:+ ": " +:+ msg)) <$>
       advisories_before fs) ++
    [RefAddIgnore (ref_id ref) true;
     ReporterWarn (human info +:+ ": " +:+ v);
     ReporterInfo (excluding_msg info)] ++ post.
Proof.
  induction fs as [|[msg|msg] fs IH]; [done| |].
  - intros [= -> _]. by eexists.
  - intros Hv. destruct (IH Hv) as [post Hpost]. exists post.
    cbn [optional_events advisories_before]. by rewrite Hpost.
Qed.

Lemma excluded_after_replicate (r : nat) (tr : list Event) (n : nat)
    (init : bool) :
  omap addIgnore_of tr = replicate n (r, true) →
  excluded_after r init tr = match n with 0 => init | S _ => true end.
Proof.
  unfold excluded_after. revert n init.
  induction tr as [|ev tr IH]; intros n init Htr.
  - by destruct n.
  - destruct ev as [msg|msg|msg|r' flag]; cbn [foldl]; try by apply IH.
    destruct n as [|n]; [done|]. injection Htr as -> -> Htr.
    rewrite Nat.eqb_refl, (IH n) by done. by destruct n.
Qed.

(** *** The policy, per kind of reference *)

(** C2 (amended).  With an optional reference [check] never throws the
    "Found incompatible module" error nor the invariant error: nothing is
    reported at error level, every violation the run reports is a
    warning, and when there is one [addIgnore(true)] is called on the
    reference.  [check] returns normally unless [semver.satisfies]
    throws on a declared engine; then its [TypeError] ends the call. *)
Theorem check_optional_never_fatal (info : Manifest) (ref : PackageReference) :
  reference info = Some ref → optional ref = true →
  (∀ msg, (check info).2 ≠ Throw (MessageError msg)) ∧
  (∀ msg, (check info).2 ≠ Throw (InvariantViolation msg)) ∧
  (¬ semver_throws info → (check info).2 = Normal ()) ∧
  (semver_throws info → ∃ msg, (check info).2 = Throw (TypeError msg)) ∧
  omap error_of (check info).1 = [] ∧
  (∀ v, v ∈ violations info →
     ReporterWarn (human info +:+ ": " +:+ v) ∈ (check info).1) ∧
  (violations info ≠ [] → RefAddIgnore (ref_id ref) true ∈ (check info).1).
Proof.
  intros Href Hopt. rewrite (check_optional_eq info ref) by done.
  cbn [fst snd]. split_and!.
  - intros msg. by destruct (fault info).
  - intros msg. by destruct (fault info).
  - intros Hno. by rewrite fault_not_throws.
  - intros Hthrows. apply fault_throws in Hthrows.
    destruct (fault info) as [msg|]; [by exists msg|done].
  - apply optional_events_errors.
  - intros v Hv. apply list_elem_of_omap in Hv as (f & Hf & Hfv).
    destruct f as [msg|msg]; [|done]. injection Hfv as ->.
    assert (human info +:+ ": " +:+ v ∈
            omap warn_of (optional_events info ref false (findings info)))
      as Hw.
    { rewrite optional_events_warns. apply list_elem_of_fmap.
      by exists (Violation v). }
    apply list_elem_of_omap in Hw as (ev & Hev & Hw).
    destruct ev; try done. by injection Hw as ->.
  - intros Hne.
    assert ((ref_id ref, true) ∈
            omap addIgnore_of (optional_events info ref false (findings info)))
      as Hi.
    { rewrite optional_events_addIgnore. fold (violations info).
      destruct (violations info); [done|]. left. }
    apply list_elem_of_omap in Hi as (ev & Hev & Hi).
    destruct ev; try done. by injection Hi as -> ->.
Qed.

(** C7.  With an optional reference and at least one violation reported
    in the call: every finding of the run gives one warning, in order;
    [addIgnore(true)] is called once per violation, after which the
    reference is marked excluded however many calls there were; the
    informational message is given exactly once, right after the warning
    of the first violation. *)
Theorem check_optional_messages (info : Manifest) (ref : PackageReference) :
  reference info = Some ref → optional ref = true → violations info ≠ [] →
  omap warn_of (check info).1 =
    (λ f, human info +:+ ": " +:+ finding_msg f) <$> findings info ∧
  omap addIgnore_of (check info).1 =
    replicate (length (violations info)) (ref_id ref, true) ∧
  (∀ init, excluded_after (ref_id ref) init (check info).1 = true) ∧
  omap info_of (check info).1 = [excluding_msg info] ∧
  (∃ v vs post,
     violations info = v :: vs ∧
     (check info).1 =
     ((λ msg, ReporterWarn (human info +:+ ": " +:+ msg)) <$>
        advisories_before (findings info)) ++
     [RefAddIgnore (ref_id ref) true;
      ReporterWarn (human info +:+ ": " +:+ v);
      ReporterInfo (excluding_msg info)] ++ post).
Proof.
  intros Href Hopt Hne. rewrite (check_optional_eq info ref) by done.
  cbn [fst]. split_and!.
  - apply optional_events_warns.
  - apply optional_events_addIgnore.
  - intros init.
    rewrite (excluded_after_replicate _ _ (length (violations info)))
      by apply optional_events_addIgnore.
    by destruct (violations info).
  - rewrite optional_events_info. fold (violations info).
    by destruct (violations info).
  - destruct (violations info) as [|v vs] eqn:Hv; [done|].
    destruct (optional_events_first info ref _ _ _ Hv) as [post Hpost].
    by exists v, vs, post.
Qed.

(** C3 (amended).  With a non-optional reference, and [semver.satisfies]
    throwing on no declared engine, [check] throws the "Found
    incompatible module" error iff the OS, the CPU or an engine is
    violated, and returns normally otherwise.  When [semver.satisfies]
    throws, its [TypeError] ends the call instead.  In every case the
    trace holds the findings of the three categories as far as the run
    got, each violation at error level, and the throw comes after the
    whole trace. *)
Theorem check_required_fatal_iff (info : Manifest) (ref : PackageReference) :
  reference info = Some ref → optional ref = false →
  (¬ semver_throws info →
     ((check info).2 = Throw (MessageError "Found incompatible module") ↔
        os_violated info ∨ cpu_violated info ∨ engines_violated info) ∧
     ((check info).2 = Normal () ↔
        ¬ (os_violated info ∨ cpu_violated info ∨ engines_violated info))) ∧
  (semver_throws info → ∃ msg, (check info).2 = Throw (TypeError msg)) ∧
  ((check info).2 = Throw (MessageError "Found incompatible module") →
     os_violated info ∨ cpu_violated info ∨ engines_violated info) ∧
  (check info).1 =
    required_event info <$>
      (os_findings info ++ cpu_findings info ++ engines_findings info) ∧
  omap error_of (check info).1 =
    (λ msg, human info +:+ ": " +:+ msg) <$> violations info.
Proof.
  intros Href Hopt. rewrite (check_required_eq info ref) by done.
  cbn [fst snd]. split_and!.
  - intros Hno. rewrite fault_not_throws by done.
    rewrite <- violations_nonempty by done. split.
    + by destruct (violations info).
    + destruct (violations info).
      * split; [|done]. by intros _ ?.
      * split; [done|]. intros Hn. by destruct Hn.
  - intros Hthrows. apply fault_throws in Hthrows.
    destruct (fault info) as [msg|]; [by exists msg|done].
  - intros Hc. apply violations_violated.
    destruct (fault info); [done|]. by destruct (violations info).
  - done.
  - apply required_events_errors.
Qed.

Lemma findings_head_violation (info : Manifest) :
  os_violated info ∨ cpu_violated info →
  advisories_before (findings info) = [] ∧ violations info ≠ [].
Proof.
  intros Hv. unfold violations, findings.
  assert (omap violation_of (os_findings info) ≠ [] ∨
          omap violation_of (cpu_findings info) ≠ []) as Hne.
  { destruct Hv; [left; by apply os_findings_violation|
                  right; by apply cpu_findings_violation]. }
  clear Hv. unfold os_findings, cpu_findings in *.
  destruct (os info) as [platforms|];
    [destruct (isValid platforms (platform process))|];
    destruct (cpu info) as [archs|];
    try destruct (isValid archs (arch process));
    simpl in *; try done; by destruct Hne.
Qed.

(** C4 (amended).  Without a reference, [check] throws the invariant
    error at the first violation the run comes to, before reporting it:
    the trace holds only the advisories found before.  A violated OS or
    CPU list gives the invariant error with nothing reported at all.
    When [semver.satisfies] throws before any violation, its [TypeError]
    ends the call; when nothing is violated and nothing thrown, [check]
    returns normally. *)
Theorem check_missing_reference (info : Manifest) :
  reference info = None →
  (os_violated info ∨ cpu_violated info →
     check info =
     ([], Throw (InvariantViolation "expected package reference"))) ∧
  (¬ semver_throws info →
     (os_violated info ∨ cpu_violated info ∨ engines_violated info →
        (check info).2 =
        Throw (InvariantViolation "expected package reference")) ∧
     (¬ (os_violated info ∨ cpu_violated info ∨ engines_violated info) →
        (check info).2 = Normal ())) ∧
  (check info).1 =
    (λ msg, ReporterWarn (human info +:+ ": " +:+ msg)) <$>
      advisories_before (findings info) ∧
  (check info).2 =
    match violations info with
    | [] =>
        match fault info with
        | Some msg => Throw (TypeError msg)
        | None => Normal ()
        end
    | _ => Throw (InvariantViolation "expected package reference")
    end.
Proof.
  intros Href. rewrite check_missing_eq by done.
  cbn [fst snd]. split_and!; [| |done|done].
  - intros Hv. apply findings_head_violation in Hv as [-> Hne].
    by destruct (violations info).
  - intros Hno. rewrite fault_not_throws by done.
    rewrite <- violations_nonempty by done. split.
    + by destruct (violations info).
    + destruct (violations info); [done|]. intros Hn. by destruct Hn.
Qed.

(** *** Engines the host does not know *)

Lemma report_with_engines (info : Manifest)
    (entries : option (list (string * string))) (st : Locals)
    (fs : list Finding) :
  report (with_engines info entries) st fs = report info st fs.
Proof.
  revert st. induction fs as [|[msg|msg] fs IH]; intros st; cbn [report].
  - done.
  - by apply eff_bind_cong.
  - by apply eff_bind_cong.
Qed.

Lemma check_with_engines (info : Manifest) (entries : list (string * string)) :
  check (with_engines info (Some entries)) =
  report info {| didIgnore := false; didError := false |}
    (os_findings info ++ cpu_findings info ++ (engines_run entries).1)
    ≫= ending (engines_run entries).2.
Proof. by rewrite check_report, report_with_engines. Qed.

Lemma check_engines (info : Manifest) (entries : list (string * string)) :
  engines info = Some entries →
  check info =
  report info {| didIgnore := false; didError := false |}
    (os_findings info ++ cpu_findings info ++ (engines_run entries).1)
    ≫= ending (engines_run entries).2.
Proof.
  intros Heng. rewrite check_report.
  unfold findings, engines_findings, fault. by rewrite Heng.
Qed.

Lemma engines_run_app (entries entries' : list (string * string)) :
  engines_run (entries ++ entries') =
  match (engines_run entries).2 with
  | Some _ => engines_run entries
  | None =>
      ((engines_run entries).1 ++ (engines_run entries').1,
       (engines_run entries').2)
  end.
Proof.
  induction entries as [|entry entries IH].
  - cbn [app engines_run fst snd]. by destruct (engines_run entries').
  - cbn [app engines_run]. destruct (engine_fault entry); [done|].
    rewrite IH. destruct (engines_run entries) as [fs [msg|]]; [done|].
    cbn [fst snd]. by rewrite app_assoc.
Qed.

Lemma report_throw (info : Manifest) (st : Locals) (fs : list Finding)
    (e : Exn) :
  (report info st fs).2 = Throw e →
  e = InvariantViolation "expected package reference".
Proof.
  destruct (reference info) as [ref|] eqn:Href.
  - destruct (optional ref) eqn:Hopt.
    + by rewrite (report_optional info ref).
    + by rewrite (report_required info ref).
  - rewrite report_missing by done. cbn [snd].
    destruct (omap violation_of fs); [done|]. by intros [= <-].
Qed.

Lemma finish_trace (st : Locals) : (finish st).1 = [].
Proof. unfold finish. by destruct (didError st). Qed.

Lemma finish_completion (st : Locals) :
  (finish st).2 = Normal () ∨
  (finish st).2 = Throw (MessageError "Found incompatible module").
Proof. unfold finish. destruct (didError st); [by right|by left]. Qed.

(** C8 (amended).  An engine entry whose resolved name [_.has] does not
    find on [process.versions], as a key or as a path, is worth one
    "appears to be invalid" warning, or nothing when the name is on the
    ignore list, and nothing else: take the entry out and [check]
    completes the same way, with the same trace but for that warning,
    which stands right where the run over the entries before it ends.
    When that run throws before reaching the entry, the entry changes
    nothing at all. *)
Theorem check_unknown_engine (info : Manifest)
    (pre post : list (string * string)) (name range : string) :
  engines info = Some (pre ++ (name, range) :: post) →
  lodash_has (versions process) (resolveAlias name) = false →
  (check info).2 = (check (with_engines info (Some (pre ++ post)))).2 ∧
  match (check (with_engines info (Some pre))).2 with
  | Throw (InvariantViolation _) | Throw (TypeError _) =>
      check info = check (with_engines info (Some pre)) ∧
      check (with_engines info (Some (pre ++ post))) =
      check (with_engines info (Some pre))
  | _ =>
      ∃ rest,
        (check info).1 =
        (check (with_engines info (Some pre))).1 ++
        (if bool_decide (resolveAlias name ∈ ignore) then []
         else [ReporterWarn
                 (human info +:+ ": The engine " +:+ resolveAlias name +:+
                  " appears to be invalid.")]) ++ rest ∧
        (check (with_engines info (Some (pre ++ post)))).1 =
        (check (with_engines info (Some pre))).1 ++ rest
  end.
Proof.
  intros Heng Hhas.
  rewrite (check_engines info _ Heng), !check_with_engines.
  set (st0 := {| didIgnore := false; didError := false |}).
  assert (engine_fault (name, range) = None) as Hfault.
  { unfold engine_fault. cbn [fst]. by rewrite Hhas. }
  rewrite (engines_run_app pre ((name, range) :: post)).
  rewrite (engines_run_app pre post).
  destruct (engines_run pre) as [fs_pre [msg|]] eqn:Hpre; cbn [fst snd].
  { (* the loop throws before the entry *)
    split; [done|].
    destruct (report info st0 _) as [tr [st|e]] eqn:Hrep; [done|].
    apply (f_equal snd), report_throw in Hrep as ->. done. }
  cbn [engines_run]. rewrite Hfault. cbn [fst snd].
  set (fs_b := os_findings info ++ cpu_findings info ++ fs_pre).
  set (fs_post := (engines_run post).1).
  set (flt := (engines_run post).2).
  assert (∀ gs, os_findings info ++ cpu_findings info ++ fs_pre ++ gs =
                fs_b ++ gs) as Hassoc.
  { intros gs. unfold fs_b. by rewrite <- !app_assoc. }
  rewrite !Hassoc, !report_app.
  destruct (report info st0 fs_b) as [tr [st|e]] eqn:Hrep.
  2:{ apply (f_equal snd), report_throw in Hrep as ->. done. }
  rewrite !eff_bind_normal. cbn [fst snd].
  rewrite (report_app info st (engine_findings (name, range)) fs_post).
  assert (report info st (engine_findings (name, range)) =
          (if bool_decide (resolveAlias name ∈ ignore) then []
           else [ReporterWarn
                   (human info +:+ ": The engine " +:+ resolveAlias name +:+
                    " appears to be invalid.")], Normal st)) as ->.
  { unfold engine_findings. cbn [fst snd]. rewrite Hhas.
    by destruct (bool_decide (resolveAlias name ∈ ignore)). }
  rewrite eff_bind_normal. cbn [fst snd].
  change (ending None st) with (finish st). rewrite finish_trace, app_nil_r.
  destruct (report info st fs_post) as [trk [stk|ek]]; cbn [fst snd].
  - rewrite !eff_bind_normal. cbn [fst snd]. split; [done|].
    destruct (finish_completion st) as [->| ->];
      exists (trk ++ (ending flt stk).1); by rewrite <- !app_assoc.
  - split; [done|].
    destruct (finish_completion st) as [->| ->]; by exists trk.
Qed.

(** *** Batch driver *)

(** A manifest that has its reference completes [check] normally, with
    the compatibility error, or with what [semver.satisfies] threw; the
    invariant error needs a missing reference. *)
Lemma check_completion_with_reference (info : Manifest) :
  reference info ≠ None →
  (check info).2 = Normal () ∨
  (check info).2 = Throw (MessageError "Found incompatible module") ∨
  ∃ msg, (check info).2 = Throw (TypeError msg).
Proof.
  destruct (reference info) as [ref|] eqn:Href; [intros _|done].
  destruct (optional ref) eqn:Hopt.
  - rewrite (check_optional_eq info ref) by done. cbn [snd].
    destruct (fault info) as [msg|]; [right; right; by exists msg|by left].
  - rewrite (check_required_eq info ref) by done. cbn [snd].
    destruct (fault info) as [msg|]; [right; right; by exists msg|].
    destruct (violations info); [by left|right; by left].
Qed.

Lemma for_of_check_normal (infos : list Manifest) :
  Forall (λ info, (check info).2 = Normal ()) infos →
  for_of infos (λ _ info, check info) () =
  (concat ((λ info, (check info).1) <$> infos), Normal ()).
Proof.
  induction 1 as [|info infos Hinfo _ IH]; [done|].
  cbn [for_of]. destruct (check info) as [tr c] eqn:Hc.
  cbn [snd] in Hinfo. subst c.
  rewrite eff_bind_normal, IH. by rewrite fmap_cons, Hc.
Qed.

(** C9.  [init] runs [check] on the manifests in the resolver's order and
    lets a throw through.  When the checks of [pre] return normally and
    the check of [info] throws, the promise is rejected with that error
    and the trace is the traces of [pre], in order, followed by that of
    [info]: nothing of [post] is in it.  When every check returns
    normally the trace holds them all and the promise is fulfilled. *)
Theorem init_stops_at_first_throw (pre post : list Manifest)
    (info : Manifest) (e : Exn) :
  Forall (λ info', (check info').2 = Normal ()) pre →
  (check info).2 = Throw e →
  init {| getManifests := pre ++ info :: post |} =
    (concat ((λ info', (check info').1) <$> pre) ++ (check info).1, Throw e) ∧
  init {| getManifests := pre |} =
    (concat ((λ info', (check info').1) <$> pre), Normal ()).
Proof.
  intros Hpre Hinfo. split; [|by apply for_of_check_normal].
  unfold init. cbn [getManifests].
  induction Hpre as [|info' pre Hinfo' _ IH].
  - cbn [app for_of]. destruct (check info) as [tr c].
    cbn [snd] in Hinfo. by subst c.
  - cbn [app for_of]. destruct (check info') as [tr c] eqn:Hc.
    cbn [snd] in Hinfo'. subst c.
    rewrite eff_bind_normal, IH, fmap_cons, Hc. cbn [fst snd concat].
    by rewrite app_assoc.
Qed.

(** *** Further properties of the checker *)

Lemma ending_trace (flt : option string) (st : Locals) :
  (ending flt st).1 = [].
Proof. destruct flt; [done|apply finish_trace]. Qed.

Lemma check_trace (info : Manifest) :
  (check info).1 =
  (report info {| didIgnore := false; didError := false |} (findings info)).1.
Proof.
  rewrite check_report.
  destruct (report _ _ _) as [tr [st|e]]; [|done].
  rewrite eff_bind_normal. cbn [fst]. by rewrite ending_trace, app_nil_r.
Qed.


Lemma resolveAlias_eq (name : string) :
  resolveAlias name = if decide (name = "iojs") then "node" else name.
Proof.
  unfold resolveAlias, aliases. rewrite lookup_singleton.
  destruct (decide ("iojs" = name)) as [<-|Hne]; [done|].
  by destruct (decide (name = "iojs")).
Qed.

Lemma resolveAlias_idemp (name : string) :
  resolveAlias (resolveAlias name) = resolveAlias name.
Proof.
  rewrite (resolveAlias_eq name).
  destruct (decide (name = "iojs")); [done|].
  rewrite resolveAlias_eq. by destruct (decide (name = "iojs")).
Qed.

Lemma engines_run_resolved (entries : list (string * string)) :
  engines_run ((λ e, (resolveAlias e.1, e.2)) <$> entries) =
  engines_run entries.
Proof.
  induction entries as [|entry entries IH]; [done|].
  rewrite fmap_cons. cbn [engines_run]. rewrite IH.
  unfold engine_fault, engine_findings. cbn [fst snd].
  by rewrite resolveAlias_idemp.
Qed.

(** X5.  [check] sees engine names only through the alias table: two
    entry lists that agree once every name is resolved give the same
    trace and the same completion.  So an ["iojs"] entry is checked as
    a ["node"] entry is. *)
Theorem check_alias_invariant (info : Manifest)
    (entries entries' : list (string * string)) :
  engines info = Some entries →
  (λ e, (resolveAlias e.1, e.2)) <$> entries' =
  (λ e, (resolveAlias e.1, e.2)) <$> entries →
  check (with_engines info (Some entries')) = check info.
Proof.
  intros Heng Hres. rewrite check_with_engines, (check_engines info entries)
    by done.
  by rewrite <- (engines_run_resolved entries'), Hres, engines_run_resolved.
Qed.

Lemma engines_run_skip (pre post : list (string * string))
    (entry : string * string) :
  engine_fault entry = None → engine_findings entry = [] →
  engines_run (pre ++ entry :: post) = engines_run (pre ++ post).
Proof.
  intros Hfault Hnone. rewrite !engines_run_app.
  destruct (engines_run pre) as [fs [msg|]]; [done|].
  cbn [engines_run fst snd]. by rewrite Hfault, Hnone.
Qed.

(** X6.  An entry whose engine the host has a version for that
    satisfies the range leaves no mark: without it [check] gives the same
    trace and the same completion. *)
Theorem check_satisfied_engine_silent (info : Manifest)
    (pre post : list (string * string)) (name range actual : string) :
  engines info = Some (pre ++ (name, range) :: post) →
  versions process !! resolveAlias name = Some actual →
  semver_satisfies (Some actual) range = SemverReturn true →
  check (with_engines info (Some (pre ++ post))) = check info.
Proof.
  intros Heng Hver Hsat.
  rewrite check_with_engines, (check_engines info _ Heng).
  rewrite engines_run_skip; [done| |].
  - unfold engine_fault, lodash_has. cbn [fst snd]. by rewrite Hver, Hsat.
  - unfold engine_findings, lodash_has. cbn [fst snd]. by rewrite Hver, Hsat.
Qed.


(** X8.  [check] marks nothing but the manifest's own reference, only
    when that reference is optional, and only with [true]. *)
Theorem check_addIgnore_own_reference (info : Manifest) (r : nat)
    (flag : bool) :
  RefAddIgnore r flag ∈ (check info).1 →
  flag = true ∧
  ∃ ref, reference info = Some ref ∧ optional ref = true ∧ r = ref_id ref.
Proof.
  intros Hin. destruct (reference info) as [ref|] eqn:Href.
  - destruct (optional ref) eqn:Hopt.
    + rewrite (check_optional_eq info ref) in Hin by done. cbn [fst] in Hin.
      assert ((r, flag) ∈ omap addIgnore_of
                (optional_events info ref false (findings info))) as Hrf.
      { apply list_elem_of_omap. by exists (RefAddIgnore r flag). }
      rewrite optional_events_addIgnore in Hrf.
      apply elem_of_replicate in Hrf as [[= -> ->] _].
      split; [done|]. by exists ref.
    + rewrite (check_required_eq info ref) in Hin by done. cbn [fst] in Hin.
      apply list_elem_of_fmap in Hin as ([msg|msg] & Hev & _); done.
  - rewrite check_missing_eq in Hin by done. cbn [fst] in Hin.
    apply list_elem_of_fmap in Hin as (msg & Hev & _). done.
Qed.

Lemma exists_error_iff (tr : list Event) :
  (∃ msg, ReporterError msg ∈ tr) ↔ omap error_of tr ≠ [].
Proof.
  split.
  - intros [msg Hin] Hnil.
    assert (msg ∈ omap error_of tr) as Hm.
    { apply list_elem_of_omap. by exists (ReporterError msg). }
    rewrite Hnil in Hm. by apply elem_of_nil in Hm.
  - intros Hne. destruct (omap error_of tr) as [|msg msgs] eqn:Herr; [done|].
    assert (msg ∈ omap error_of tr) as Hm by (rewrite Herr; left).
    apply list_elem_of_omap in Hm as (ev & Hin & Hev).
    destruct ev; try done. injection Hev as ->. by eexists.
Qed.

Lemma check_errors (info : Manifest) :
  omap error_of (check info).1 =
  match reference info with
  | Some ref =>
      if optional ref then []
      else (λ msg, human info +:+ ": " +:+ msg) <$> violations info
  | None => []
  end.
Proof.
  destruct (reference info) as [ref|] eqn:Href.
  - destruct (optional ref) eqn:Hopt.
    + rewrite (check_optional_eq info ref) by done.
      apply optional_events_errors.
    + rewrite (check_required_eq info ref) by done.
      apply required_events_errors.
  - rewrite check_missing_eq by done. cbn [fst].
    induction (advisories_before (findings info)); [done|].
    by rewrite fmap_cons, omap_cons.
Qed.

(** X9.  For every manifest, [check] throws the "Found incompatible
    module" error only after reporting something at error level; and a
    call that reported something at error level ends with that error,
    unless a [TypeError] from [semver.satisfies] ended it first. *)
Theorem check_error_iff_throw (info : Manifest) :
  ((check info).2 = Throw (MessageError "Found incompatible module") →
     ∃ msg, ReporterError msg ∈ (check info).1) ∧
  ((∃ msg, ReporterError msg ∈ (check info).1) →
     (∀ msg, (check info).2 ≠ Throw (TypeError msg)) →
     (check info).2 = Throw (MessageError "Found incompatible module")).
Proof.
  rewrite exists_error_iff, check_errors.
  destruct (reference info) as [ref|] eqn:Href.
  - destruct (optional ref) eqn:Hopt.
    + rewrite (check_optional_eq info ref) by done. cbn [snd].
      split; [|done]. by destruct (fault info).
    + rewrite (check_required_eq info ref) by done. cbn [snd]. split.
      * destruct (fault info); [done|]. by destruct (violations info).
      * intros Hne Hnt. destruct (fault info) as [msg|].
        { by destruct (Hnt msg). }
        by destruct (violations info).
  - rewrite check_missing_eq by done. cbn [snd].
    split; [|done]. destruct (violations info); [|done].
    by destruct (fault info).
Qed.

Lemma pushError_prefixed (info : Manifest) (st : Locals) (msg : string) :
  Forall (λ ev, ∀ text, message_of ev = Some text →
                ∃ rest, text = human info +:+ rest)
    (pushError info st msg).1.
Proof.
  destruct (reference info) as [ref|] eqn:Href.
  - destruct (optional ref) eqn:Hopt.
    + rewrite (pushError_optional info ref) by done. cbn [fst].
      destruct (didIgnore st); repeat constructor;
        intros text [= <-]; by eexists.
    + rewrite (pushError_required info ref) by done. cbn [fst].
      repeat constructor. intros text [= <-]. by eexists.
  - rewrite pushError_missing by done. constructor.
Qed.

Lemma report_prefixed (info : Manifest) (st : Locals) (fs : list Finding) :
  Forall (λ ev, ∀ text, message_of ev = Some text →
                ∃ rest, text = human info +:+ rest)
    (report info st fs).1.
Proof.
  revert st. induction fs as [|[msg|msg] fs IH]; intros st; cbn [report].
  - constructor.
  - pose proof (pushError_prefixed info st msg) as Hp.
    destruct (pushError info st msg) as [tr [st'|e]]; [|done].
    rewrite eff_bind_normal. apply Forall_app. split; [done|apply IH].
  - rewrite eff_bind_emit. cbn [fst]. constructor; [|apply IH].
    intros text [= <-]. by eexists.
Qed.

(** X10.  Whatever [check] reports, at any level, starts with the
    package's [name@version]. *)
Theorem check_messages_prefixed (info : Manifest) (ev : Event)
    (text : string) :
  ev ∈ (check info).1 → message_of ev = Some text →
  ∃ rest, text = human info +:+ rest.
Proof.
  rewrite check_trace. intros Hin Htext.
  pose proof (report_prefixed info {| didIgnore := false; didError := false |}
                (findings info)) as Hall.
  rewrite Forall_forall in Hall.
  by apply (Hall ev Hin text Htext).
Qed.

(** X11.  An engine [_.has] finds on [process.versions] is held to its
    range whatever its name, the names of the ignore list included: with
    a non-optional reference, and [semver.satisfies] throwing on no
    earlier entry, a version that fails the range is reported at error
    level, under the resolved name, and [check] throws: the
    compatibility error, or the [TypeError] of a later entry. *)
Theorem check_engine_version_mismatch (info : Manifest)
    (ref : PackageReference) (pre post : list (string * string))
    (name range : string) :
  reference info = Some ref → optional ref = false →
  engines info = Some (pre ++ (name, range) :: post) →
  (∀ entry, entry ∈ pre → engine_fault entry = None) →
  lodash_has (versions process) (resolveAlias name) = true →
  semver_satisfies (versions process !! resolveAlias name) range =
    SemverReturn false →
  ReporterError
    (human info +:+ ": The engine " +:+ resolveAlias name +:+
     " is incompatible with this module. Expected version " +:+
     range +:+ ".") ∈ (check info).1 ∧
  ((check info).2 = Throw (MessageError "Found incompatible module") ∨
   ∃ msg, (check info).2 = Throw (TypeError msg)) ∧
  (¬ semver_throws info →
   (check info).2 = Throw (MessageError "Found incompatible module")).
Proof.
  intros Href Hopt Heng Hpre Hhas Hsat.
  set (msg := "The engine " +:+ resolveAlias name +:+
              " is incompatible with this module. Expected version " +:+
              range +:+ ".").
  assert (Violation msg ∈ findings info) as Hf.
  { unfold findings, engines_findings. rewrite Heng, engines_run_app.
    rewrite (engines_run_no_fault pre) by done. cbn [fst snd engines_run].
    assert (engine_fault (name, range) = None) as ->.
    { unfold engine_fault. cbn [fst snd]. by rewrite Hhas, Hsat. }
    cbn [fst]. rewrite !elem_of_app. right. right. right. left.
    unfold engine_findings. cbn [fst snd]. rewrite Hhas, Hsat. left. }
  assert (violations info ≠ []) as Hv.
  { assert (msg ∈ violations info) as Hin.
    { apply list_elem_of_omap. by exists (Violation msg). }
    intros Hnil. rewrite Hnil in Hin. by apply elem_of_nil in Hin. }
  rewrite (check_required_eq info ref) by done. cbn [fst snd]. split_and!.
  - apply list_elem_of_fmap. by exists (Violation msg).
  - destruct (fault info) as [m|]; [right; by exists m|left].
    by destruct (violations info).
  - intros Hno. rewrite fault_not_throws by done.
    by destruct (violations info).
Qed.

(** X12.  An empty [os] or [cpu] list admits no host: whatever the
    platform and architecture, [check] on a manifest with a non-optional
    reference reports at error level and does not return normally; it
    throws the compatibility error unless [semver.satisfies] throws
    first. *)
Theorem check_empty_list_rejects (info : Manifest) (ref : PackageReference) :
  reference info = Some ref → optional ref = false →
  os info = Some [] ∨ cpu info = Some [] →
  (check info).2 ≠ Normal () ∧
  (∃ msg, ReporterError msg ∈ (check info).1) ∧
  (¬ semver_throws info →
   (check info).2 = Throw (MessageError "Found incompatible module")).
Proof.
  intros Href Hopt Hempty.
  assert (violations info ≠ []) as Hne.
  { apply findings_head_violation. destruct Hempty as [Hos|Hcpu].
    - left. by exists [].
    - right. by exists []. }
  rewrite exists_error_iff, check_errors, Href, Hopt.
  rewrite (check_required_eq info ref) by done. cbn [snd]. split_and!.
  - destruct (fault info); [done|]. by destruct (violations info).
  - by destruct (violations info).
  - intros Hno. rewrite fault_not_throws by done.
    by destruct (violations info).
Qed.

Lemma check_silent_findings (info : Manifest) :
  check info = ([], Normal ()) ↔ findings info = [] ∧ fault info = None.
Proof.
  split.
  - intros Hc. destruct (findings info) as [|f fs] eqn:Hfs.
    + split; [done|]. rewrite check_report, Hfs in Hc.
      by destruct (fault info).
    + destruct (reference info) as [ref|] eqn:Href.
      * destruct (optional ref) eqn:Hopt.
        -- rewrite (check_optional_eq info ref), Hfs in Hc by done.
           by destruct f.
        -- rewrite (check_required_eq info ref), Hfs in Hc by done.
           by destruct f.
      * rewrite check_missing_eq in Hc by done. unfold violations in Hc.
        rewrite Hfs in Hc. by destruct f.
  - intros [Hfs Hflt]. by rewrite check_report, Hfs, Hflt.
Qed.

Lemma engines_run_silent (entries : list (string * string)) :
  engines_run entries = ([], None) ↔
  ∀ entry, entry ∈ entries →
           engine_fault entry = None ∧ engine_findings entry = [].
Proof.
  induction entries as [|entry entries IH].
  - split; [|done]. intros _ entry Hin. by apply elem_of_nil in Hin.
  - cbn [engines_run]. split.
    + destruct (engine_fault entry) eqn:Hf; [done|].
      destruct (engines_run entries) as [fs flt]. cbn [fst snd].
      intros [= [Hfind ->]%app_eq_nil ->].
      intros entry' [->|Hin]%elem_of_cons; [done|]. by apply IH.
    + intros Hall. destruct (Hall entry) as [-> ->]; [left|].
      assert (engines_run entries = ([], None)) as ->; [|done].
      apply IH. intros entry' Hin. apply Hall. by right.
Qed.

(** X13.  [check] returns normally without reporting or marking
    anything exactly when each declared list admits the host, each engine
    [_.has] finds on [process.versions] is satisfied, and each engine it
    does not find is on the ignore list. *)
Theorem check_silent_iff (info : Manifest) :
  check info = ([], Normal ()) ↔
  (∀ platforms, os info = Some platforms →
     isValidPlatform platforms = true) ∧
  (∀ archs, cpu info = Some archs → isValidArch archs = true) ∧
  (∀ entries name range,
     engines info = Some entries → (name, range) ∈ entries →
     if lodash_has (versions process) (resolveAlias name) then
       semver_satisfies (versions process !! resolveAlias name) range =
         SemverReturn true
     else resolveAlias name ∈ ignore).
Proof.
  rewrite check_silent_findings. unfold findings. rewrite !app_nil.
  assert (os_findings info = [] ↔
          ∀ platforms, os info = Some platforms →
                       isValidPlatform platforms = true) as ->.
  { unfold os_findings, isValidPlatform. destruct (os info) as [l|].
    - destruct (isValid l (platform process)) eqn:Hv.
      + split; [|done]. by intros _ ? [= <-].
      + split; [done|]. intros Hall. specialize (Hall l eq_refl). congruence.
    - split; [|done]. by intros _ ? [=]. }
  assert (cpu_findings info = [] ↔
          ∀ archs, cpu info = Some archs → isValidArch archs = true) as ->.
  { unfold cpu_findings, isValidArch. destruct (cpu info) as [l|].
    - destruct (isValid l (arch process)) eqn:Hv.
      + split; [|done]. by intros _ ? [= <-].
      + split; [done|]. intros Hall. specialize (Hall l eq_refl). congruence.
    - split; [|done]. by intros _ ? [=]. }
  assert (∀ name range,
            engine_fault (name, range) = None ∧
            engine_findings (name, range) = [] ↔
            if lodash_has (versions process) (resolveAlias name) then
              semver_satisfies (versions process !! resolveAlias name) range =
                SemverReturn true
            else resolveAlias name ∈ ignore) as Hentry.
  { intros name range. unfold engine_fault, engine_findings. cbn [fst snd].
    destruct (lodash_has (versions process) (resolveAlias name)).
    - destruct (semver_satisfies _ _) as [[]|msg]; split; try done;
        by intros [? ?].
    - case_bool_decide; split; try done; by intros [? ?]. }
  assert (engines_findings info = [] ∧ fault info = None ↔
          ∀ entries name range,
            engines info = Some entries → (name, range) ∈ entries →
            if lodash_has (versions process) (resolveAlias name) then
              semver_satisfies (versions process !! resolveAlias name) range =
                SemverReturn true
            else resolveAlias name ∈ ignore) as Heng.
  { unfold engines_findings, fault. destruct (engines info) as [entries|].
    - assert ((engines_run entries).1 = [] ∧ (engines_run entries).2 = None ↔
              engines_run entries = ([], None)) as ->.
      { destruct (engines_run entries) as [fs flt]. cbn [fst snd].
        split; [by intros [-> ->]|by intros [= -> ->]]. }
      rewrite engines_run_silent. split.
      + intros Hall ? name range [= <-] Hin. by apply Hentry, Hall.
      + intros Hall [name range] Hin. by apply Hentry, (Hall entries).
    - split; [|done]. by intros _ ? ? ? [=]. }
  rewrite <- Heng. tauto.
Qed.

(** *** Further properties of the batch driver *)

Lemma for_of_app {A St} (xs ys : list A) (body : St → A → Eff St) (st : St) :
  for_of (xs ++ ys) body st = for_of xs body st ≫= for_of ys body.
Proof.
  revert st. induction xs as [|x xs IH]; intros st; cbn [app for_of].
  - by rewrite eff_bind_ret.
  - rewrite eff_bind_assoc. by apply eff_bind_ext.
Qed.

(** X14.  Checking a batch is checking its first part and, when that is
    fulfilled, the rest: one trace after the other, and a rejection of
    the first part is the rejection of the whole. *)
Theorem init_app (infos infos' : list Manifest) :
  init {| getManifests := infos ++ infos' |} =
  init {| getManifests := infos |} ≫=
    λ _, init {| getManifests := infos' |}.
Proof.
  unfold init. cbn [getManifests]. rewrite for_of_app.
  apply eff_bind_ext. by intros [].
Qed.

(** X15.  The promise of [init] is fulfilled exactly when the check of
    every manifest returns normally. *)
Theorem init_fulfilled_iff (resolver : PackageResolver) :
  (init resolver).2 = Normal () ↔
  Forall (λ info, (check info).2 = Normal ()) (getManifests resolver).
Proof.
  split; [|intros Hall; unfold init; by rewrite for_of_check_normal].
  unfold init. induction (getManifests resolver) as [|info infos IH].
  - constructor.
  - cbn [for_of]. destruct (check info) as [tr [[]|e]] eqn:Hc; [|done].
    rewrite eff_bind_normal. cbn [snd]. intros Hrest.
    constructor; [by rewrite Hc|by apply IH].
Qed.

(** X16.  When [init] rejects with an error, some manifest's check
    threw that error and every check before it returned normally. *)
Theorem init_rejected_inv (resolver : PackageResolver) (e : Exn) :
  (init resolver).2 = Throw e →
  ∃ pre info post,
    getManifests resolver = pre ++ info :: post ∧
    Forall (λ info', (check info').2 = Normal ()) pre ∧
    (check info).2 = Throw e.
Proof.
  unfold init. induction (getManifests resolver) as [|info infos IH].
  - done.
  - cbn [for_of]. destruct (check info) as [tr [[]|e']] eqn:Hc.
    + rewrite eff_bind_normal. cbn [snd]. intros Hrest.
      destruct (IH Hrest) as (pre & info' & post & -> & Hpre & Hthrow).
      exists (info :: pre), info', post. split_and!; [done| |done].
      constructor; [by rewrite Hc|done].
    + intros [= ->]. exists [], info, infos. split_and!; [done|constructor|].
      by rewrite Hc.
Qed.

Lemma for_of_check_invariant {P : list Event → Prop} {Q : Exn → Prop}
    (infos : list Manifest) :
  P [] → (∀ tr tr', P tr → P tr' → P (tr ++ tr')) →
  Forall (λ info, P (check info).1 ∧
                  ∀ e, (check info).2 = Throw e → Q e) infos →
  P (for_of infos (λ _ info, check info) ()).1 ∧
  ∀ e, (for_of infos (λ _ info, check info) ()).2 = Throw e → Q e.
Proof.
  intros Hnil Happ. induction 1 as [|info infos [Htr Hthrow] _ IH]; [done|].
  cbn [for_of]. destruct (check info) as [tr [[]|e']].
  - rewrite eff_bind_normal. cbn [fst snd] in *. split; [|apply IH].
    apply Happ; [done|apply IH].
  - cbn [fst snd] in *. split; [done|]. intros e [= <-]. by apply Hthrow.
Qed.

(** X17.  A batch of manifests that all carry an optional reference is
    never rejected with the compatibility error or the invariant error,
    and nothing is reported at error level; when [semver.satisfies]
    throws on none of their engines, [init] is fulfilled. *)
Theorem init_all_optional (resolver : PackageResolver) :
  Forall (λ info, ∃ ref, reference info = Some ref ∧ optional ref = true)
    (getManifests resolver) →
  omap error_of (init resolver).1 = [] ∧
  (∀ e, (init resolver).2 = Throw e → ∃ msg, e = TypeError msg) ∧
  (Forall (λ info, ¬ semver_throws info) (getManifests resolver) →
   (init resolver).2 = Normal ()).
Proof.
  intros Hall. unfold init.
  destruct (for_of_check_invariant
              (P := λ tr, omap error_of tr = [])
              (Q := λ e, ∃ msg, e = TypeError msg)
              (getManifests resolver)) as [Htr Hthrow].
  - done.
  - intros tr tr' Htr Htr'. by rewrite omap_app, Htr, Htr'.
  - eapply Forall_impl; [exact Hall|].
    intros info (ref & Href & Hopt).
    rewrite (check_optional_eq info ref) by done. cbn [fst snd].
    split; [apply optional_events_errors|].
    destruct (fault info) as [msg|]; [|done]. intros e [= <-]. by exists msg.
  - split_and!; [done|done|]. intros Hno.
    rewrite for_of_check_normal; [done|].
    apply Forall_forall. intros info Hin.
    rewrite Forall_forall in Hall. rewrite Forall_forall in Hno.
    destruct (Hall info Hin) as (ref & Href & Hopt).
    rewrite (check_optional_eq info ref) by done. cbn [snd].
    by rewrite fault_not_throws by by apply Hno.
Qed.

(** X18.  When every manifest carries its reference, the invariant
    error cannot come out of [init]: it is fulfilled, or rejected with
    the "Found incompatible module" error or with a [TypeError] of
    [semver.satisfies]. *)
Theorem init_no_invariant_error (resolver : PackageResolver) :
  Forall (λ info, reference info ≠ None) (getManifests resolver) →
  (init resolver).2 = Normal () ∨
  (init resolver).2 = Throw (MessageError "Found incompatible module") ∨
  ∃ msg, (init resolver).2 = Throw (TypeError msg).
Proof.
  unfold init. induction 1 as [|info infos Href _ IH]; [by left|].
  cbn [for_of].
  destruct (check_completion_with_reference info Href) as [Hc|[Hc|[msg Hc]]];
    destruct (check info) as [tr c]; cbn [snd] in Hc; subst c.
  - by rewrite eff_bind_normal.
  - right. by left.
  - right. right. by exists msg.
Qed.

End CheckerProperties.

(** ** The checker on the example hosts *)

(** C2, as the specification states it, fails: the manifest has an
    optional reference, yet the call does not return normally.  The
    host's [modules] version is no semantic version, [semver.satisfies]
    throws on it, and nothing in [check] catches that. *)
Lemma check_optional_throws_counterexample :
  reference (native None (Some optional_ref)) = Some optional_ref ∧
  optional optional_ref = true ∧
  check semver_strict no_paths modules_host (native None (Some optional_ref)) =
  ([], Throw (TypeError "Invalid Version: 127")).
Proof. split_and!; reflexivity. Qed.

Lemma check_optional_never_fatal_witness :
  (check semver_never no_paths win32_host (left_pad (Some optional_ref))).2 =
  Normal ().
Proof.
  apply (check_optional_never_fatal semver_never no_paths win32_host
           (left_pad (Some optional_ref)) optional_ref eq_refl eq_refl).
  intros (entries & name & range & msg & _ & _ & _ & Hthrow).
  vm_compute in Hthrow. discriminate Hthrow.
Defined.

Lemma check_optional_messages_witness :
  omap info_of
    (check semver_never no_paths win32_host
       (left_pad (Some optional_ref))).1 =
  [excluding_msg (left_pad (Some optional_ref))].
Proof.
  apply (check_optional_messages semver_never no_paths win32_host
           (left_pad (Some optional_ref)) optional_ref).
  - reflexivity.
  - reflexivity.
  - vm_compute. discriminate.
Defined.

(** C3, as the specification states it, fails: the reference is not
    optional and the empty [os] list is violated and reported, yet the
    call ends with the [TypeError] of [semver.satisfies], not with the
    "Found incompatible module" error. *)
Lemma check_required_throws_counterexample :
  reference (native (Some []) (Some required_ref)) = Some required_ref ∧
  optional required_ref = false ∧
  os_violated modules_host (native (Some []) (Some required_ref)) ∧
  check semver_strict no_paths modules_host
    (native (Some []) (Some required_ref)) =
  ([ReporterError
      "native@1.2.0: The platform linux is incompatible with this module."],
   Throw (TypeError "Invalid Version: 127")).
Proof.
  split_and!; [reflexivity|reflexivity| |reflexivity].
  exists []. split; reflexivity.
Qed.

Lemma check_required_fatal_iff_witness :
  (check semver_never no_paths win32_host (left_pad (Some required_ref))).2 =
  Throw (MessageError "Found incompatible module").
Proof.
  apply (check_required_fatal_iff semver_never no_paths win32_host
           (left_pad (Some required_ref)) required_ref eq_refl eq_refl).
  - intros (entries & name & range & msg & _ & _ & _ & Hthrow).
    vm_compute in Hthrow. discriminate Hthrow.
  - left. exists ["!win32"]. split; reflexivity.
Defined.

(** C4, as the specification states it, fails: a manifest without a
    reference and without violations is checked to the end, and [check]
    returns normally, here after a warning about an unknown engine. *)
Lemma check_missing_reference_counterexample :
  reference (bare None) = None ∧
  check semver_never no_paths win32_host (bare None) = ([], Normal ()) ∧
  reference (unknown_tool None) = None ∧
  check semver_never no_paths win32_host (unknown_tool None) =
  ([ReporterWarn "tool@2.0.0: The engine someUnknownTool appears to be invalid."],
   Normal ()).
Proof. split_and!; reflexivity. Qed.

Lemma check_missing_reference_witness :
  check semver_never no_paths win32_host (left_pad None) =
  ([], Throw (InvariantViolation "expected package reference")).
Proof.
  apply (check_missing_reference semver_never no_paths win32_host
           (left_pad None) eq_refl).
  left. exists ["!win32"]. split; reflexivity.
Defined.

(** C8, as the specification states it, fails: the engine name
    ["node.length"] is no key of the host's versions and is not on the
    ignore list, yet no "appears to be invalid" warning is given.
    [_.has] reads the name as a path and finds the length of the [node]
    version; line 121 then reads [process.versions["node.length"]], which
    is [undefined], and the entry is routed to [pushError]. *)
Lemma check_path_name_counterexample :
  versions win32_host !! "node.length" = None ∧
  (resolveAlias "node.length" ∉ ignore) ∧
  check semver_strict length_path win32_host (dotted (Some required_ref)) =
  ([ReporterError
      "dotted@1.0.0: The engine node.length is incompatible with this module. Expected version *."],
   Throw (MessageError "Found incompatible module")).
Proof.
  split_and!; [reflexivity| |reflexivity].
  apply (bool_decide_unpack _). vm_compute. exact I.
Qed.

Lemma init_stops_at_first_throw_witness :
  init semver_never no_paths win32_host
    {| getManifests :=
         [bare (Some required_ref)] ++
         left_pad (Some required_ref) :: [unknown_tool None] |} =
  (concat ((λ info, (check semver_never no_paths win32_host info).1) <$>
             [bare (Some required_ref)]) ++
   (check semver_never no_paths win32_host (left_pad (Some required_ref))).1,
   Throw (MessageError "Found incompatible module")).
Proof.
  apply (init_stops_at_first_throw semver_never no_paths win32_host
           [bare (Some required_ref)] [unknown_tool None]
           (left_pad (Some required_ref))
           (MessageError "Found incompatible module")).
  - repeat constructor.
  - reflexivity.
Defined.

Lemma check_alias_invariant_witness :
  check semver_never no_paths win32_host
    (with_engines (left_pad (Some required_ref))
       (Some [("teleport", "*"); ("foo", "*"); ("node", ">=99.0.0")])) =
  check semver_never no_paths win32_host (left_pad (Some required_ref)).
Proof.
  apply (check_alias_invariant semver_never no_paths win32_host
           (left_pad (Some required_ref))
           [("teleport", "*"); ("foo", "*"); ("iojs", ">=99.0.0")]).
  - reflexivity.
  - reflexivity.
Defined.

Lemma check_satisfied_engine_silent_witness :
  check semver_always no_paths npm_host
    (with_engines (npm_pinned (Some required_ref))
       (Some ([] ++ [("npm", ">=99")]))) =
  check semver_always no_paths npm_host (npm_pinned (Some required_ref)).
Proof.
  apply (check_satisfied_engine_silent semver_always no_paths npm_host
           (npm_pinned (Some required_ref)) [] [("npm", ">=99")]
           "node" ">=4" "18.0.0").
  - reflexivity.
  - reflexivity.
  - reflexivity.
Defined.


Lemma check_addIgnore_own_reference_witness :
  true = true ∧
  ∃ ref, reference (left_pad (Some optional_ref)) = Some ref ∧
         optional ref = true ∧ 2 = ref_id ref.
Proof.
  apply (check_addIgnore_own_reference semver_never no_paths win32_host
           (left_pad (Some optional_ref)) 2 true).
  vm_compute. left.
Defined.

Lemma check_error_iff_throw_witness :
  (check semver_strict no_paths modules_host
     (nowhere (Some required_ref))).2 =
  Throw (MessageError "Found incompatible module").
Proof.
  apply (check_error_iff_throw semver_strict no_paths modules_host
           (nowhere (Some required_ref))).
  - exists "nowhere@0.0.1: The platform linux is incompatible with this module.".
    vm_compute. left.
  - intros msg. vm_compute. discriminate.
Defined.

Lemma check_messages_prefixed_witness :
  ∃ rest,
    "left-pad@1.0.0: The platform win32 is incompatible with this module." =
    human (left_pad (Some optional_ref)) +:+ rest.
Proof.
  apply (check_messages_prefixed semver_never no_paths win32_host
           (left_pad (Some optional_ref))
           (ReporterWarn
              "left-pad@1.0.0: The platform win32 is incompatible with this module.")).
  - vm_compute. right. left.
  - reflexivity.
Defined.

Lemma check_engine_version_mismatch_witness :
  ReporterError
    "pinned@3.1.0: The engine npm is incompatible with this module. Expected version >=99." ∈
    (check semver_strict no_paths npm_host
       (npm_pinned (Some required_ref))).1.
Proof.
  apply (check_engine_version_mismatch semver_strict no_paths npm_host
           (npm_pinned (Some required_ref)) required_ref
           [("node", ">=4")] [] "npm" ">=99").
  - reflexivity.
  - reflexivity.
  - reflexivity.
  - intros entry Hin. apply list_elem_of_singleton in Hin. rewrite Hin.
    reflexivity.
  - reflexivity.
  - reflexivity.
Defined.

Lemma check_empty_list_rejects_witness :
  (check semver_strict no_paths modules_host
     (native (Some []) (Some required_ref))).2 ≠ Normal ().
Proof.
  apply (check_empty_list_rejects semver_strict no_paths modules_host
           (native (Some []) (Some required_ref)) required_ref).
  - reflexivity.
  - reflexivity.
  - left. reflexivity.
Defined.

Lemma check_unknown_engine_witness :
  (check semver_never no_paths win32_host (left_pad (Some required_ref))).2 =
  (check semver_never no_paths win32_host
     (with_engines (left_pad (Some required_ref))
        (Some ([("teleport", "*")] ++ [("iojs", ">=99.0.0")])))).2.
Proof.
  apply (check_unknown_engine semver_never no_paths win32_host
           (left_pad (Some required_ref))
           [("teleport", "*")] [("iojs", ">=99.0.0")] "foo" "*").
  - reflexivity.
  - reflexivity.
Defined.

Lemma init_rejected_inv_witness :
  ∃ pre info post,
    [bare (Some required_ref); left_pad (Some required_ref);
     unknown_tool None] = pre ++ info :: post ∧
    Forall (λ info',
              (check semver_never no_paths win32_host info').2 = Normal ())
      pre ∧
    (check semver_never no_paths win32_host info).2 =
    Throw (MessageError "Found incompatible module").
Proof.
  apply (init_rejected_inv semver_never no_paths win32_host
           {| getManifests :=
                [bare (Some required_ref); left_pad (Some required_ref);
                 unknown_tool None] |}).
  reflexivity.
Defined.

Lemma init_all_optional_witness :
  omap error_of
    (init semver_strict no_paths modules_host
       {| getManifests :=
            [nowhere (Some optional_ref);
             native None (Some optional_ref)] |}).1 = [].
Proof.
  apply (init_all_optional semver_strict no_paths modules_host
           {| getManifests :=
                [nowhere (Some optional_ref);
                 native None (Some optional_ref)] |}).
  repeat constructor; exists optional_ref; split; reflexivity.
Defined.

Lemma init_no_invariant_error_witness :
  (init semver_never no_paths win32_host
     {| getManifests :=
          [bare (Some required_ref); left_pad (Some required_ref)] |}).2 =
  Normal () ∨
  (init semver_never no_paths win32_host
     {| getManifests :=
          [bare (Some required_ref); left_pad (Some required_ref)] |}).2 =
  Throw (MessageError "Found incompatible module") ∨
  ∃ msg,
    (init semver_never no_paths win32_host
       {| getManifests :=
            [bare (Some required_ref); left_pad (Some required_ref)] |}).2 =
    Throw (TypeError msg).
Proof.
  apply (init_no_invariant_error semver_never no_paths win32_host
           {| getManifests :=
                [bare (Some required_ref); left_pad (Some required_ref)] |}).
  repeat constructor; discriminate.
Defined.
